(** * The answer grading engine of projet_python

    A shallow embedding of the two graders of the repository:
    - [ReponseAnalyzer] of [Questionnaire.py]: text normalisation, keyword
      extraction, similarity, required and forbidden points, the local score,
      the Gemini path and the router between the two;
    - [BaselineGrader] of [Projet/flaskapp/grader.py].

    Python values are modelled as follows.
    - A [str] is the list of its code points ([pystr]).  What the program
      takes from the interpreter and its standard library ([str.lower],
      the character classes behind [\w], [\s] and [str.split],
      [difflib.SequenceMatcher.ratio]) is a [Runtime]; [latin1] is the
      runtime of CPython restricted to code points below 256.
    - A [float] is a rational that is representable in binary64; every
      arithmetic operation rounds its exact result to the nearest
      representable number, ties to even ([Float64.fl]).  Overflow to
      infinity is not modelled: all the numbers of the graders are bounded.
    - A [dict] with string keys is a [gmap string pyval].
    - A call that can raise returns an [outcome]. *)

From Stdlib Require Import ZArith NArith QArith Qround Qpower Qminmax Lia Lqa.
From stdpp Require Import gmap strings list.

Set Warnings "-register-all".

(** ** Binary64 arithmetic *)

Module Float64.
Local Open Scope Q_scope.

(** Nearest integer, ties to the even one. *)
Definition rne (x : Q) : Z :=
  let f := Qfloor x in
  match Qcompare (x - inject_Z f) (1 # 2) with
  | Lt => f
  | Gt => (f + 1)%Z
  | Eq => if Z.even f then f else (f + 1)%Z
  end.

(** [ilog2 q] is the integer [k] with [2^k <= q < 2^(k+1)], for [0 < q]. *)
Definition ilog2 (q : Q) : Z :=
  let k := (Z.log2 (Qnum q) - Z.log2 (Zpos (Qden q)))%Z in
  if Qle_bool (2 ^ k) q then k else (k - 1)%Z.

(** Exponent of the smallest subnormal number. *)
Definition emin : Z := (-1074)%Z.

(** Exponent of the unit in the last place of the binade of [q]:
    53 significant bits, subnormals below [2^-1022]. *)
Definition ulp_exp (q : Q) : Z := Z.max (ilog2 q - 52) emin.

(** Rounding to a multiple of [2^e]. *)
Definition round_at (e : Z) (q : Q) : Q := inject_Z (rne (q / 2 ^ e)) * 2 ^ e.

Definition fl_pos (q : Q) : Q := Qred (round_at (ulp_exp q) q).

(** The binary64 number nearest to [q]. *)
Definition fl (q : Q) : Q :=
  match Qnum q with
  | Z0 => 0
  | Zpos _ => fl_pos q
  | Zneg _ => Qred (- fl_pos (- q))
  end.

Definition fadd (a b : Q) : Q := fl (a + b).
Definition fsub (a b : Q) : Q := fl (a - b).
Definition fmul (a b : Q) : Q := fl (a * b).
Definition fdiv (a b : Q) : Q := fl (a / b).

(** [round(x, ndigits)] on a float: the decimal with [ndigits] digits
    nearest to the exact value of [x] (ties to even), read back as a float. *)
Definition py_round (x : Q) (ndigits : nat) : Q :=
  let s := inject_Z (10 ^ Z.of_nat ndigits) in
  fl (inject_Z (rne (x * s)) / s).

(** [int] to [float]. *)
Definition of_nat (n : nat) : Q := inject_Z (Z.of_nat n).

Definition Qltb (a b : Q) : bool := negb (Qle_bool b a).

End Float64.

Import Float64.

(** ** Python values *)

(** A [str]: its code points. *)
Abbreviation pystr := (list N).

(** Reading of a UTF-8 literal. *)
Fixpoint utf8_decode (bs : list N) : pystr :=
  match bs with
  | [] => []
  | b :: r =>
    if (b <? 128)%N then b :: utf8_decode r
    else if (b <? 224)%N then
      match r with
      | c1 :: r' => ((b - 192) * 64 + (c1 - 128))%N :: utf8_decode r'
      | _ => []
      end
    else if (b <? 240)%N then
      match r with
      | c1 :: c2 :: r' =>
        ((b - 224) * 4096 + (c1 - 128) * 64 + (c2 - 128))%N :: utf8_decode r'
      | _ => []
      end
    else
      match r with
      | c1 :: c2 :: c3 :: r' =>
        ((b - 240) * 262144 + (c1 - 128) * 4096 + (c2 - 128) * 64 + (c3 - 128))%N
          :: utf8_decode r'
      | _ => []
      end
  end.

Definition py (s : string) : pystr :=
  utf8_decode (map (fun a => Ascii.N_of_ascii a) (String.list_ascii_of_string s)).

(** A literal of the source that holds double quotes is written with a
    backquote (code point 96) for each of them. *)
Definition pyq (s : string) : pystr :=
  map (fun c => if (c =? 96)%N then 34%N else c) (py s).

Inductive pyfloat :=
  | FFin (x : Q)
  | FInf (negative : bool)
  | FNaN.

(** The values [json.loads] produces, which are also those the result
    dictionaries hold. *)
Inductive pyval :=
  | PNone
  | PBool (b : bool)
  | PInt (z : Z)
  | PFloat (f : pyfloat)
  | PStr (s : pystr)
  | PList (l : list pyval)
  | PDict (d : gmap string pyval).

(** An exception, instance of [Exception]: its class and [str(e)]. *)
Record exn := Exn { exn_class : string; exn_msg : pystr }.

Inductive outcome (A : Type) :=
  | Returns (a : A)
  | Raises (e : exn).
Arguments Returns {A} a.
Arguments Raises {A} e.

Definition bind {A B} (o : outcome A) (k : A -> outcome B) : outcome B :=
  match o with
  | Returns a => k a
  | Raises e => Raises e
  end.

(** Whether a call returns. *)
Definition returns {A} (o : outcome A) : bool :=
  match o with
  | Returns _ => true
  | Raises _ => false
  end.

(** [try: o except Exception as e: h e] *)
Definition try_except {A} (o : outcome A) (h : exn -> outcome A) : outcome A :=
  match o with
  | Returns a => Returns a
  | Raises e => h e
  end.

(** The number a value stands for in a comparison, when it has one. *)
Definition py_number (v : pyval) : option Q :=
  match v with
  | PBool b => Some (if b then 1 else 0)%Q
  | PInt z => Some (inject_Z z)
  | PFloat (FFin x) => Some x
  | _ => None
  end.

Definition type_name (v : pyval) : string :=
  match v with
  | PNone => "NoneType"
  | PBool _ => "bool"
  | PInt _ => "int"
  | PFloat _ => "float"
  | PStr _ => "str"
  | PList _ => "list"
  | PDict _ => "dict"
  end.

(** [v >= n] for an [int] literal [n]. *)
Definition py_ge_int (v : pyval) (n : Z) : outcome bool :=
  match v with
  | PBool _ | PInt _ | PFloat (FFin _) =>
    Returns (match py_number v with
             | Some x => Qle_bool (inject_Z n) x
             | None => false
             end)
  | PFloat (FInf negative) => Returns (negb negative)
  | PFloat FNaN => Returns false
  | _ =>
    Raises (Exn "TypeError"
              (py "'>=' not supported between instances of '"
               ++ py (type_name v) ++ py "' and 'int'"))
  end.

(** [d.setdefault(k, v)] *)
Definition setdefault (k : string) (v : pyval) (d : gmap string pyval)
  : gmap string pyval :=
  match d !! k with
  | Some _ => d
  | None => <[k := v]> d
  end.

Definition PStrs (l : list pystr) : pyval := PList (map PStr l).

(** ** The runtime *)

(** What the program calls but does not define: [str.lower], the classes
    [str.isalnum] and [str.isspace] of a code point (the regular expression
    [\w] is [isalnum] or the underscore, [\s] and [str.split] use [isspace]),
    and [SequenceMatcher(None, a, b).ratio()] of [difflib]. *)
Class Runtime := {
  str_lower : pystr -> pystr;
  str_isalnum : N -> bool;
  str_isspace : N -> bool;
  SequenceMatcher_ratio : pystr -> pystr -> Q
}.

(** What is assumed of a runtime where it matters.  CPython satisfies these
    laws: the space is white space and [str.lower] leaves it unchanged,
    every code point [str.lower] produces is left unchanged by [str.lower],
    and so is a string whose code points all are. *)
Record RuntimeLaws (R : Runtime) : Prop := {
  isspace_space : str_isspace 32 = true;
  lower_space : str_lower [32%N] = [32%N];
  lower_produces_settled :
    forall (t : pystr) (c : N), c ∈ str_lower t -> str_lower [c] = [c];
  lower_of_settled :
    forall z : pystr, (forall c : N, c ∈ z -> str_lower [c] = [c]) -> str_lower z = z
}.

(** ** Strings *)

Section Strings.
Context {R : Runtime}.

(** [t.split()]: the maximal runs of code points that are not white space;
    [cur] is the run being read. *)
Fixpoint str_split_from (cur : pystr) (t : pystr) : list pystr :=
  match t with
  | [] => match cur with [] => [] | _ => [cur] end
  | c :: r =>
    if str_isspace c
    then match cur with
         | [] => str_split_from [] r
         | _ => cur :: str_split_from [] r
         end
    else str_split_from (cur ++ [c]) r
  end.

Definition str_split (t : pystr) : list pystr := str_split_from [] t.

(** [sep.join(l)] *)
Fixpoint str_join (sep : pystr) (l : list pystr) : pystr :=
  match l with
  | [] => []
  | [x] => x
  | x :: r => x ++ sep ++ str_join sep r
  end.

Fixpoint str_startswith (t p : pystr) : bool :=
  match p, t with
  | [], _ => true
  | _ :: _, [] => false
  | x :: p', y :: t' => (x =? y)%N && str_startswith t' p'
  end.

(** [p in t] *)
Fixpoint str_contains (t p : pystr) : bool :=
  str_startswith t p ||
  match t with
  | [] => false
  | _ :: t' => str_contains t' p
  end.

(** [\w] *)
Definition is_word (c : N) : bool := str_isalnum c || (c =? 95)%N.

(** [re.sub(r'[^\w\s]', ' ', t)] *)
Definition sub_ponctuation (t : pystr) : pystr :=
  map (fun c => if is_word c || str_isspace c then c else 32%N) t.

(** Lines of a literal that spans several lines. *)
Definition text_lines (l : list string) : pystr := str_join [10%N] (map pyq l).

(** A run of code points none of which is white space. *)
Definition no_space (w : pystr) : Prop := Forall (fun c => str_isspace c = false) w.

(** [x or d] on strings. *)
Definition str_or (x d : pystr) : pystr :=
  match x with [] => d | _ => x end.

End Strings.

(** ** [Questionnaire.py]: [ReponseAnalyzer] *)

(** The spaCy pipeline [fr_core_news_md], when it is installed:
    [mots_cles_lemmes t] is the list
    [[token.lemma_ for token in nlp(t) if token.pos_ in ['NOUN', 'VERB', 'ADJ'] and not token.is_stop]],
    [has_vector t] is [nlp(t).has_vector] and [similarity t1 t2] is
    [nlp(t1).similarity(nlp(t2))]. *)
Record spacy_model := {
  mots_cles_lemmes : pystr -> list pystr;
  has_vector : pystr -> bool;
  similarity : pystr -> pystr -> Q
}.

(** What a call of [generate_content] and the reading of its answer give:
    the call, or the access to [response.text], raises; [json.loads] rejects
    the text; or [json.loads] returns a value. *)
Inductive gemini_reply :=
  | CallRaises (e : exn)
  | BadJSON (text : pystr)
  | Parsed (text : pystr) (v : pyval).

(** [self]: [self.nlp] and [self.gemini_model], [None] when the model could
    not be set up. *)
Record ReponseAnalyzer := {
  nlp : option spacy_model;
  gemini_model : option (pystr -> gemini_reply)
}.

(** The dictionary of a question; a field is [None] when the key is absent. *)
Record question_data := {
  titre : option pystr;
  enonce : option pystr;
  reponse_attendue : option pystr;
  points_obligatoires : option (list pystr);
  erreurs_a_eviter : option (list pystr)
}.

Record verification := {
  presents : list pystr;
  absents : list pystr;
  partiels : list pystr
}.

(** An [int] or a [float]. *)
Inductive number :=
  | Int (z : Z)
  | Float (x : Q).

Definition number_val (n : number) : Q :=
  match n with
  | Int z => inject_Z z
  | Float x => x
  end.

Definition number_pyval (n : number) : pyval :=
  match n with
  | Int z => PInt z
  | Float x => PFloat (FFin x)
  end.

(** [max(0, x)] for a float [x]: the first argument unless the second is greater. *)
Definition max_0 (x : Q) : number := if Qltb 0 x then Float x else Int 0.

(** [round(n, ndigits)]: an [int] is returned as it is. *)
Definition round_number (n : number) (ndigits : nat) : number :=
  match n with
  | Int z => Int z
  | Float x => Float (py_round x ndigits)
  end.

(** The literals [0.4] and [0.7]; [0.5] is exact. *)
Definition c_0_4 : Q := fl (4 # 10).
Definition c_0_7 : Q := fl (7 # 10).
Definition c_0_5 : Q := 1 # 2.

Definition stop_words : gset pystr :=
  list_to_set
    (map py ["le"; "la"; "les"; "un"; "une"; "des"; "de"; "du";
             "à"; "et"; "ou"; "est"; "sont"; "dans"; "sur"; "pour"]).

(** The defaults of [evaluer_reponse_gemini], [correct] being the value of
    [resultats.get('score', 0) >= 60]. *)
Definition defauts_gemini (correct : bool) : gmap string pyval :=
  <["est_correct" := PBool correct]>
  (<["similarite" := PInt 0]>
  (<["elements_presents" := PList []]>
  (<["elements_partiels" := PList []]>
  (<["elements_absents" := PList []]>
  (<["erreurs_detectees" := PList []]>
  (<["suggestions" := PStrs [py "Analyse effectuée par Gemini."]]>
  (<["score" := PInt 0]> ∅))))))).

Section Analyzer.
Context {R : Runtime}.
Variable self : ReponseAnalyzer.

Definition normaliser_texte (texte : pystr) : pystr :=
  let texte := str_lower texte in
  let texte := sub_ponctuation texte in
  str_join (py " ") (str_split texte).

Definition extraire_mots_cles (texte : pystr) : gset pystr :=
  match nlp self with
  | Some m => list_to_set (mots_cles_lemmes m texte)
  | None =>
    let texte_norm := normaliser_texte texte in
    let mots := str_split texte_norm in
    list_to_set (filter (fun mot => (3 < length mot)%nat /\ mot ∉ stop_words) mots)
  end.

Definition calculer_similarite (texte1 texte2 : pystr) : Q :=
  match nlp self with
  | Some m =>
    if negb (has_vector m texte1) || negb (has_vector m texte2)
    then SequenceMatcher_ratio texte1 texte2
    else similarity m texte1 texte2
  | None =>
    let texte1_norm := normaliser_texte texte1 in
    let texte2_norm := normaliser_texte texte2 in
    SequenceMatcher_ratio texte1_norm texte2_norm
  end.

(** The two tests of the loop of [verifier_presence_elements]:
    [element_norm in reponse_norm], and
    [mots_cles_element and len(mots_cles_element & mots_cles_reponse) >= len(mots_cles_element) * 0.7]. *)
Definition element_present (reponse_norm : pystr) (element : pystr) : bool :=
  let element_norm := normaliser_texte element in
  str_contains reponse_norm element_norm.

Definition element_partiel (mots_cles_reponse : gset pystr) (element : pystr) : bool :=
  let mots_cles_element := extraire_mots_cles element in
  bool_decide (mots_cles_element <> ∅)
  && Qle_bool (fmul (of_nat (size mots_cles_element)) c_0_7)
              (of_nat (size (mots_cles_element ∩ mots_cles_reponse))).

(** One turn of the loop. *)
Definition classer (reponse_norm : pystr) (mots_cles_reponse : gset pystr)
    (resultats : verification) (element : pystr) : verification :=
  if element_present reponse_norm element then
    {| presents := presents resultats ++ [element];
       absents := absents resultats;
       partiels := partiels resultats |}
  else if element_partiel mots_cles_reponse element then
    {| presents := presents resultats;
       absents := absents resultats;
       partiels := partiels resultats ++ [element] |}
  else
    {| presents := presents resultats;
       absents := absents resultats ++ [element];
       partiels := partiels resultats |}.

Definition verifier_presence_elements (reponse_user : pystr)
    (elements_requis : list pystr) : verification :=
  let reponse_norm := normaliser_texte reponse_user in
  let mots_cles_reponse := extraire_mots_cles reponse_user in
  fold_left (classer reponse_norm mots_cles_reponse) elements_requis
    {| presents := []; absents := []; partiels := [] |}.

Definition detecter_erreurs (reponse_user : pystr)
    (erreurs_a_eviter : list pystr) : list pystr :=
  let reponse_norm := normaliser_texte reponse_user in
  fold_left
    (fun erreurs_detectees erreur =>
       let erreur_norm := normaliser_texte erreur in
       if str_contains reponse_norm erreur_norm
       then erreurs_detectees ++ [erreur]
       else erreurs_detectees)
    erreurs_a_eviter [].

Definition _generer_suggestions (verification_elements : verification)
    (erreurs_detectees : list pystr) : list pystr :=
  let suggestions := [] in
  let suggestions :=
    match absents verification_elements with
    | [] => suggestions
    | _ => suggestions ++
           [py "⚠️ Pensez à mentionner : "
            ++ str_join (py ", ") (take 3 (absents verification_elements))]
    end in
  let suggestions :=
    match partiels verification_elements with
    | [] => suggestions
    | _ => suggestions ++
           [py "📝 Développez davantage : "
            ++ str_join (py ", ") (take 2 (partiels verification_elements))]
    end in
  let suggestions :=
    match erreurs_detectees with
    | [] => suggestions
    | _ => suggestions ++
           [py "❌ Évitez de mentionner : "
            ++ str_join (py ", ") (take 2 erreurs_detectees)]
    end in
  match suggestions with
  | [] => [py "✅ Excellente réponse ! Tous les points importants sont couverts."]
  | _ => suggestions
  end.

(** [score_base] after the bonus of the required points. *)
Definition score_base (similarite : Q) (verification_elements : verification)
    (points_obligatoires : list pystr) : Q :=
  let score_base := fmul similarite 100 in
  match points_obligatoires with
  | [] => score_base
  | _ =>
    let taux_elements :=
      fdiv (fadd (of_nat (length (presents verification_elements)))
                 (fmul (of_nat (length (partiels verification_elements))) c_0_5))
           (of_nat (length points_obligatoires)) in
    fadd (fmul score_base c_0_4) (fmul taux_elements 60)
  end.

(** [score_final], before it is rounded for the result. *)
Definition score_final (similarite : Q) (verification_elements : verification)
    (erreurs_trouvees : list pystr) (points_obligatoires : list pystr) : number :=
  let penalite_erreurs := (Z.of_nat (length erreurs_trouvees) * 10)%Z in
  max_0 (fsub (score_base similarite verification_elements points_obligatoires)
              (inject_Z penalite_erreurs)).

Definition est_correct (score_final : number) (verification_elements : verification)
    (erreurs_trouvees : list pystr) : bool :=
  Qle_bool 60 (number_val score_final)
  && match erreurs_trouvees with [] => true | _ => false end
  && Nat.eqb (length (absents verification_elements)) 0.

Definition evaluer_reponse_local (question : question_data) (reponse_user : pystr)
  : gmap string pyval :=
  let reponse_attendue := default [] (reponse_attendue question) in
  let points_obligatoires := default [] (points_obligatoires question) in
  let erreurs_a_eviter := default [] (erreurs_a_eviter question) in
  let similarite := calculer_similarite reponse_user reponse_attendue in
  let verification_elements :=
    verifier_presence_elements reponse_user points_obligatoires in
  let erreurs_trouvees := detecter_erreurs reponse_user erreurs_a_eviter in
  let score_final :=
    score_final similarite verification_elements erreurs_trouvees points_obligatoires in
  let est_correct := est_correct score_final verification_elements erreurs_trouvees in
  <["est_correct" := PBool est_correct]>
  (<["score" := number_pyval (round_number score_final 1)]>
  (<["similarite" := PFloat (FFin (py_round (fmul similarite 100) 1))]>
  (<["elements_presents" := PStrs (presents verification_elements)]>
  (<["elements_partiels" := PStrs (partiels verification_elements)]>
  (<["elements_absents" := PStrs (absents verification_elements)]>
  (<["erreurs_detectees" := PStrs erreurs_trouvees]>
  (<["suggestions" :=
       PStrs (_generer_suggestions verification_elements erreurs_trouvees)]> ∅))))))).

(** The pieces of the f-string of [_construire_prompt_gemini], between its
    six replacement fields. *)
Definition prompt_0 : pystr :=
  text_lines
    [ "";
      "        Tu es un assistant d'évaluation pédagogique. Ton rôle est d'évaluer la réponse d'un étudiant à une question donnée, en te basant sur des critères stricts.";
      "";
      "        Voici la question :";
      "        Titre : " ].

Definition prompt_1 : pystr :=
  text_lines
    [ "";
      "        Énoncé : " ].

Definition prompt_2 : pystr :=
  text_lines
    [ "";
      "";
      "        Voici les critères d'évaluation :";
      "        1.  Réponse attendue (modèle) : " ].

Definition prompt_3 : pystr :=
  text_lines
    [ "";
      "        2.  Points obligatoires (doivent être présents) : " ].

Definition prompt_4 : pystr :=
  text_lines
    [ "";
      "        3.  Erreurs à éviter (ne doivent pas être présents) : " ].

Definition prompt_5 : pystr :=
  text_lines
    [ "";
      "";
      "        Voici la réponse de l'étudiant :";
      "        `" ].

Definition prompt_6 : pystr :=
  text_lines
    [ "`";
      "";
      "        TA TÂCHE :";
      "        Évalue la réponse de l'étudiant en fonction des critères.";
      "        Fournis une analyse structurée au format JSON EXACT.";
      "        Le JSON doit contenir les clés suivantes :";
      "        -   `score`: Un score numérique de 0 à 100.";
      "        -   `est_correct`: Un booléen (true/false) indiquant si la réponse est globalement satisfaisante (score >= 60 et pas d'erreurs majeures).";
      "        -   `elements_presents`: Une liste de strings des points obligatoires que tu as trouvés dans la réponse.";
      "        -   `elements_partiels`: Une liste de strings des points obligatoires qui sont mentionnés mais pas assez développés.";
      "        -   `elements_absents`: Une liste de strings des points obligatoires qui manquent.";
      "        -   `erreurs_detectees`: Une liste de strings des `erreurs à éviter` que tu as trouvées.";
      "        -   `suggestions`: Une liste de strings donnant 1 ou 2 conseils clés à l'étudiant pour s'améliorer, basés sur les éléments absents ou les erreurs.";
      "        ";
      "        Ne renvoie QUE le JSON, sans aucun autre texte avant ou après.";
      "        " ].

Definition _construire_prompt_gemini (question : question_data)
    (reponse_user : pystr) : pystr :=
  let prompt :=
    prompt_0 ++ default (py "N/A") (titre question)
    ++ prompt_1 ++ default (py "N/A") (enonce question)
    ++ prompt_2 ++ default (py "N/A") (reponse_attendue question)
    ++ prompt_3
    ++ str_or (str_join (py ", ") (default [] (points_obligatoires question))) (py "N/A")
    ++ prompt_4
    ++ str_or (str_join (py ", ") (default [] (erreurs_a_eviter question))) (py "N/A")
    ++ prompt_5 ++ reponse_user ++ prompt_6 in
  str_join (py " ") (str_split prompt).

(** The exception of the [except] clause of [evaluer_reponse_gemini]. *)
Definition erreur_parsing (text : pystr) : exn :=
  Exn "Exception" (py "Erreur parsing JSON de Gemini. Réponse: " ++ text).

(** The eight [setdefault] calls on a parsed object.  The default of
    ['est_correct'] is computed before the call, whether the key is present
    or not, and its [TypeError] is not one the [except] clause catches. *)
Definition completer_resultats (resultats : gmap string pyval)
  : outcome (gmap string pyval) :=
  bind (py_ge_int (default (PInt 0) (resultats !! "score")) 60) (fun correct =>
  let resultats := setdefault "est_correct" (PBool correct) resultats in
  let resultats := setdefault "similarite" (PInt 0) resultats in
  let resultats := setdefault "elements_presents" (PList []) resultats in
  let resultats := setdefault "elements_partiels" (PList []) resultats in
  let resultats := setdefault "elements_absents" (PList []) resultats in
  let resultats := setdefault "erreurs_detectees" (PList []) resultats in
  let resultats :=
    setdefault "suggestions" (PStrs [py "Analyse effectuée par Gemini."]) resultats in
  let resultats := setdefault "score" (PInt 0) resultats in
  Returns resultats).

Definition evaluer_reponse_gemini (question : question_data) (reponse_user : pystr)
  : outcome (gmap string pyval * pystr) :=
  let prompt := _construire_prompt_gemini question reponse_user in
  match gemini_model self with
  | None =>
    Raises (Exn "AttributeError"
              (py "'NoneType' object has no attribute 'generate_content'"))
  | Some generate_content =>
    match generate_content prompt with
    | CallRaises e => Raises e
    | BadJSON text => Raises (erreur_parsing text)
    | Parsed text (PDict resultats) =>
      bind (completer_resultats resultats) (fun resultats =>
      Returns (resultats, prompt))
    | Parsed text _ => Raises (erreur_parsing text)
    end
  end.

(** The router. *)
Definition evaluer_reponse (question : question_data) (reponse_user : pystr)
  : outcome (gmap string pyval * pystr) :=
  match gemini_model self with
  | Some _ =>
    try_except (evaluer_reponse_gemini question reponse_user) (fun e =>
      let resultats := evaluer_reponse_local question reponse_user in
      Returns (resultats,
               py "Erreur Gemini (" ++ exn_msg e ++ py ") - Mode local utilisé."))
  | None =>
    let resultats := evaluer_reponse_local question reponse_user in
    Returns (resultats, py "Mode local (Gemini non configuré).")
  end.

End Analyzer.

(** ** [grader.py]: [BaselineGrader] *)

(** What [re.search(pattern, text, flags=re.I)] does on a [str] pattern:
    it raises [re.error] when the pattern does not compile, returns a match
    object or returns [None]. *)
Inductive re_result :=
  | ReError (e : exn)
  | ReMatch
  | ReNoMatch.

Record BaselineGrader := {
  req : list pyval;
  forb : list pyval;
  expected : pystr
}.

(** [BaselineGrader(required_points, forbidden_points, expected)] *)
Definition BaselineGrader_init (required_points forbidden_points : option (list pyval))
    (expected : option pystr) : BaselineGrader :=
  {| req := default [] required_points;
     forb := default [] forbidden_points;
     expected := default [] expected |}.

(** [min(100, x)] and [max(0, n)]: the first argument unless the second is
    smaller, respectively greater. *)
Definition min_100 (x : Q) : number := if Qltb x 100 then Float x else Int 100.
Definition max_0_number (n : number) : number :=
  if Qltb 0 (number_val n) then n else Int 0.

(** [v == s] for a [str] literal [s]: only an equal [str] is equal to it. *)
Definition py_eq_str (v : option pyval) (s : pystr) : bool :=
  match v with
  | Some (PStr t) => bool_decide (t = s)
  | _ => false
  end.

Section Grader.
Context {R : Runtime}.
Variable re_search : pystr -> pystr -> re_result.
Variable self : BaselineGrader.

(** [re.search] on a pattern that is not a [str]. *)
Definition re_search_type_error (pattern : pyval) : exn :=
  match pattern with
  | PList _ | PDict _ =>
    Exn "TypeError" (py "unhashable type: '" ++ py (type_name pattern) ++ py "'")
  | _ => Exn "TypeError" (py "first argument must be string or compiled pattern")
  end.

Definition _check_point (spec : pyval) (text : pystr) : outcome bool :=
  match spec with
  | PStr spec => Returns (str_contains (str_lower text) (str_lower spec))
  | PDict spec =>
    if py_eq_str (spec !! "type") (py "regex") then
      match default (PStr (py "")) (spec !! "value") with
      | PStr pattern =>
        match re_search pattern text with
        | ReError e => Raises e
        | ReMatch => Returns true
        | ReNoMatch => Returns false
        end
      | pattern => Raises (re_search_type_error pattern)
      end
    else Returns false
  | _ => Returns false
  end.

(** The loop over [self.req]: [(found, missing)]. *)
Fixpoint classer_requis (text : pystr) (points : list pyval)
    (found missing : list pyval) : outcome (list pyval * list pyval) :=
  match points with
  | [] => Returns (found, missing)
  | p :: points =>
    bind (_check_point p text) (fun present =>
    if present then classer_requis text points (found ++ [p]) missing
    else classer_requis text points found (missing ++ [p]))
  end.

(** [[p for p in self.forb if self._check_point(p, text)]] *)
Fixpoint points_violes (text : pystr) (points : list pyval) : outcome (list pyval) :=
  match points with
  | [] => Returns []
  | p :: points =>
    bind (_check_point p text) (fun present =>
    bind (points_violes text points) (fun violated =>
    Returns (if present then p :: violated else violated)))
  end.

(** [grade]: the score and the dictionary [feedback], which the source
    returns serialised by [json.dumps]. *)
Definition grade (answer : pystr) : outcome (number * gmap string pyval) :=
  let text := str_or answer (py "") in
  let sim := SequenceMatcher_ratio (str_lower text) (str_lower (expected self)) in
  let base := py_round (fmul sim 40) 2 in
  bind (classer_requis text (req self) [] []) (fun '(found, missing) =>
  let req_score := (10 * Z.of_nat (length found))%Z in
  bind (points_violes text (forb self)) (fun violated =>
  let pen := (10 * Z.of_nat (length violated))%Z in
  let score :=
    max_0_number (min_100 (fsub (fadd base (inject_Z req_score)) (inject_Z pen))) in
  let feedback : gmap string pyval :=
    <["similarity_score" := PFloat (FFin base)]>
    (<["required_found" := PList found]>
    (<["required_missing" := PList missing]>
    (<["forbidden_detected" := PList violated]>
    (<["final" := number_pyval score]> ∅)))) in
  Returns (score, feedback))).

End Grader.

(** ** A runtime: CPython on code points below 256 *)

(** [difflib.SequenceMatcher(None, a, b)] with its default [autojunk]. *)
Module Difflib.

(** The elements of [b] that [__chain_b] removes from [b2j]: those that
    occur more than [len(b) // 100 + 1] times, when [len(b) >= 200]. *)
Definition popular (b : pystr) (c : N) : bool :=
  (200 <=? length b)%nat
  && (length b / 100 + 1 <? length (filter (fun y => y = c) b))%nat.

(** One turn of the outer loop of [find_longest_match]: [newj2len] from
    [j2len], as the list of its values at each [j]; [diag] is [j2len[j-1]]. *)
Fixpoint next_row (pop : N -> bool) (x : N) (b : pystr) (diag : nat)
    (j2len : list nat) : list nat :=
  match b, j2len with
  | y :: b', k :: j2len' =>
    (if (x =? y)%N && negb (pop y) then S diag else 0%nat)
      :: next_row pop x b' k j2len'
  | _, _ => []
  end.

(** [if k > bestsize: besti, bestj, bestsize = i-k+1, j-k+1, k] along a row. *)
Fixpoint scan_row (i j : nat) (row : list nat) (best : nat * nat * nat)
  : nat * nat * nat :=
  match row with
  | [] => best
  | k :: row' =>
    scan_row i (S j) row'
      (if (best.2 <? k)%nat then ((i + 1 - k)%nat, (j + 1 - k)%nat, k) else best)
  end.

Fixpoint longest_run (pop : N -> bool) (a : pystr) (i : nat) (b : pystr)
    (j2len : list nat) (best : nat * nat * nat) : nat * nat * nat :=
  match a with
  | [] => best
  | x :: a' =>
    let row := next_row pop x b 0 j2len in
    longest_run pop a' (S i) b row (scan_row i 0 row best)
  end.

(** The two loops that extend the match by equal elements on each end. *)
Fixpoint extend_left (fuel : nat) (a b : pystr) (best : nat * nat * nat)
  : nat * nat * nat :=
  match fuel with
  | O => best
  | S fuel =>
    let '(i, j, k) := best in
    if (0 <? i)%nat && (0 <? j)%nat
       && bool_decide (a !! (i - 1)%nat = b !! (j - 1)%nat)
    then extend_left fuel a b ((i - 1)%nat, (j - 1)%nat, S k)
    else best
  end.

Fixpoint extend_right (fuel : nat) (a b : pystr) (best : nat * nat * nat)
  : nat * nat * nat :=
  match fuel with
  | O => best
  | S fuel =>
    let '(i, j, k) := best in
    if (i + k <? length a)%nat && (j + k <? length b)%nat
       && bool_decide (a !! (i + k)%nat = b !! (j + k)%nat)
    then extend_right fuel a b (i, j, S k)
    else best
  end.

(** [find_longest_match(alo, ahi, blo, bhi)] on the slices [a[alo:ahi]] and
    [b[blo:bhi]], with indices relative to the slices. *)
Definition find_longest_match (pop : N -> bool) (a b : pystr) : nat * nat * nat :=
  let best := longest_run pop a 0 b (repeat 0%nat (length b)) (0, 0, 0)%nat in
  let best := extend_left (length a) a b best in
  extend_right (length a) a b best.

(** The sum of the sizes of the blocks of [get_matching_blocks]. *)
Fixpoint matches (fuel : nat) (pop : N -> bool) (a b : pystr) : nat :=
  match fuel with
  | O => 0
  | S fuel =>
    let '(i, j, k) := find_longest_match pop a b in
    if (k =? 0)%nat then 0%nat
    else (k
          + (if (0 <? i)%nat && (0 <? j)%nat
             then matches fuel pop (take i a) (take j b) else 0)
          + (if (i + k <? length a)%nat && (j + k <? length b)%nat
             then matches fuel pop (drop (i + k) a) (drop (j + k) b) else 0))%nat
  end.

(** A match [(i, j, k)] that lies within sequences of lengths [la] and [lb]. *)
Definition within (la lb : nat) (m : nat * nat * nat) : Prop :=
  (m.1.1 + m.2 <= la)%nat /\ (m.1.2 + m.2 <= lb)%nat.

(** [ratio()]: [2.0 * matches / length], or [1.0] when both are empty. *)
Definition ratio (a b : pystr) : Q :=
  let length_ab := (length a + length b)%nat in
  match length_ab with
  | O => 1
  | _ =>
    fdiv (fmul 2 (of_nat (matches (S (length a)) (popular b) a b))) (of_nat length_ab)
  end.

End Difflib.

Definition in_ranges (ranges : list (N * N)) (c : N) : bool :=
  existsb (fun r => (r.1 <=? c)%N && (c <=? r.2)%N) ranges.

Definition latin1_isalnum : N -> bool :=
  in_ranges [(48, 57); (65, 90); (97, 122); (170, 170); (178, 179); (181, 181);
             (185, 186); (188, 190); (192, 214); (216, 246); (248, 255)]%N.

Definition latin1_isspace : N -> bool :=
  in_ranges [(9, 13); (28, 32); (133, 133); (160, 160)]%N.

Definition latin1_lower_char (c : N) : N :=
  if in_ranges [(65, 90); (192, 214); (216, 222)]%N c then (c + 32)%N else c.

Definition latin1 : Runtime :=
  {| str_lower := map latin1_lower_char;
     str_isalnum := latin1_isalnum;
     str_isspace := latin1_isspace;
     SequenceMatcher_ratio := Difflib.ratio |}.

(** ** Rubrics that differ by one forbidden point *)

(** [question] with its list of forbidden points replaced. *)
Definition avec_erreurs (question : question_data) (erreurs : list pystr)
  : question_data :=
  {| titre := titre question;
     enonce := enonce question;
     reponse_attendue := reponse_attendue question;
     points_obligatoires := points_obligatoires question;
     erreurs_a_eviter := Some erreurs |}.

(** [grader] with its list of forbidden points replaced. *)
Definition avec_forb (grader : BaselineGrader) (forbidden : list pyval)
  : BaselineGrader :=
  {| req := req grader; forb := forbidden; expected := expected grader |}.

(** The number under the key ['score'] of a result. *)
Definition score_of (resultats : gmap string pyval) : option Q :=
  match resultats !! "score" with
  | Some v => py_number v
  | None => None
  end.

(** ** What the score takes from the libraries *)

(** The similarity that the local score starts from is computed by a
    library.  The ratio of [difflib] is [2.0 * matches / length], at most 1.
    The similarity of spaCy is a cosine computed in single precision, which
    is at most 1 up to its rounding; the bound leaves room for it. *)
Definition similarite_max : Q := 10001 # 10000.

Record SimilarityLaws (R : Runtime) (spacy : option spacy_model) : Prop := {
  ratio_le_1 : forall a b : pystr, (SequenceMatcher_ratio a b <= 1)%Q;
  similarity_le_max :
    forall (m : spacy_model) (a b : pystr),
      spacy = Some m -> (similarity m a b <= similarite_max)%Q
}.

(** ** Concrete analysers, questions and graders *)

(** Neither spaCy nor Gemini. *)
Definition analyzer_local : ReponseAnalyzer :=
  {| nlp := None; gemini_model := None |}.

(** Gemini answers every prompt with [reply]. *)
Definition analyzer_gemini (reply : gemini_reply) : ReponseAnalyzer :=
  {| nlp := None; gemini_model := Some (fun _ => reply) |}.

Definition question_alphabet : question_data :=
  {| titre := Some (py "Alphabet");
     enonce := Some (py "Citez les lettres.");
     reponse_attendue := Some (py "z");
     points_obligatoires := Some (map py ["a"; "b"; "c"; "d"; "e"; "f"; "g"]);
     erreurs_a_eviter := Some [] |}.

Definition question_photosynthese : question_data :=
  {| titre := Some (py "Photosynthese");
     enonce := Some (py "Que fait la photosynthese ?");
     reponse_attendue := Some (py "La photosynthese convertit la lumiere");
     points_obligatoires := Some (map py ["photosynthese"; "chlorophylle"]);
     erreurs_a_eviter := Some (map py ["respiration cellulaire"]) |}.

(** An engine that rejects the pattern [(], as CPython's does
    ([re.error: missing ), unterminated subpattern at position 0]), and finds
    nothing otherwise. *)
Definition re_error_paren : exn :=
  Exn "error" (py "missing ), unterminated subpattern at position 0").

Definition re_search_paren (pattern text : pystr) : re_result :=
  if bool_decide (pattern = py "(") then ReError re_error_paren else ReNoMatch.

(** An engine that rejects the pattern [(] too, and searches any other
    pattern as a literal, without regard to case: what [re.search] does,
    with [re.I], on a pattern without special characters. *)
Definition re_search_litteral (pattern text : pystr) : re_result :=
  if bool_decide (pattern = py "(") then ReError re_error_paren
  else if str_contains (str_lower (Runtime := latin1) text)
                       (str_lower (Runtime := latin1) pattern)
       then ReMatch else ReNoMatch.

Definition regex_spec (pattern : pystr) : pyval :=
  PDict (<["type" := PStr (py "regex")]> (<["value" := PStr pattern]> ∅)).

Definition grader_simple : BaselineGrader :=
  BaselineGrader_init (Some [PStr (py "a,b")]) (Some [PStr (py "mitochondrie")])
                      (Some (py "a b")).

(** Replies of Gemini: an object with a score of 150, the empty object, an
    object whose score is a string, and a call that fails. *)
Definition reply_score_150 : gemini_reply :=
  Parsed (pyq "{`score`: 150}") (PDict (<["score" := PInt 150]> ∅)).

Definition reply_objet_vide : gemini_reply :=
  Parsed (py "{}") (PDict ∅).

Definition reply_score_texte : gemini_reply :=
  Parsed (pyq "{`score`: `eleve`}") (PDict (<["score" := PStr (py "eleve")]> ∅)).

Definition reply_score_85 : gemini_reply :=
  Parsed (pyq "{`score`: 85}") (PDict (<["score" := PInt 85]> ∅)).

Definition reply_echec : gemini_reply :=
  CallRaises (Exn "DeadlineExceeded" (py "504 Deadline Exceeded")).

(** A point of the rubric of [BaselineGrader] that is neither a [str] nor a
    dictionary whose ['type'] is ['regex']. *)
Definition kind_inconnu (spec : pyval) : Prop :=
  match spec with
  | PStr _ => False
  | PDict spec => py_eq_str (spec !! "type") (py "regex") = false
  | _ => True
  end.

(** ** What the callers rely on *)

(** The keys that [afficher_resultats] reads in a result. *)
Definition cles_resultats : gset string :=
  {[ "est_correct"; "score"; "similarite"; "elements_presents";
     "elements_partiels"; "elements_absents"; "erreurs_detectees"; "suggestions" ]}.

(** A point of the rubric of [BaselineGrader] that [_check_point] does not
    hand to [re.search]: anything but a dictionary whose ['type'] is
    ['regex']. *)
Definition sans_regex (spec : pyval) : Prop :=
  match spec with
  | PDict spec => py_eq_str (spec !! "type") (py "regex") = false
  | _ => True
  end.

(** ** [Questionnaire.py]: [QuestionManager.get_next_question_number] *)

(** [Config.QUESTION_PREFIX] *)
Definition QUESTION_PREFIX : pystr := py "question_".

Section Replace.

(** [t.replace(old, new)] for a non-empty [old]: the occurrences of [old]
    are replaced from left to right, without overlap; [skip] is the number
    of code points of the occurrence being replaced that are still to pass. *)
Fixpoint str_replace_from (skip : nat) (old new t : pystr) : pystr :=
  match t with
  | [] => []
  | c :: r =>
    match skip with
    | S skip => str_replace_from skip old new r
    | O =>
      if str_startswith t old
      then new ++ str_replace_from (length old - 1) old new r
      else c :: str_replace_from 0 old new r
    end
  end.

Definition str_replace (t old new : pystr) : pystr := str_replace_from 0 old new t.

End Replace.

Section QuestionManager.

(** [int(s)] on a [str]: [None] when it raises [ValueError]. *)
Variable py_int : pystr -> option Z.

(** [max(numbers)] for a list that is not empty. *)
Definition max_list (n : Z) (numbers : list Z) : Z := fold_left Z.max numbers n.

(** The loop that collects the numbers of the files. *)
Definition collecter_numeros (stems : list pystr) : list Z :=
  fold_left
    (fun numbers stem =>
       match py_int (str_replace stem QUESTION_PREFIX (py "")) with
       | Some num => numbers ++ [num]
       | None => numbers
       end)
    stems [].

(** [get_next_question_number], from the stems of the files that
    [questions_dir.glob("question_*.pkl")] lists. *)
Definition get_next_question_number (existing_files : list pystr) : Z :=
  match existing_files with
  | [] => 1%Z
  | _ =>
    match collecter_numeros existing_files with
    | [] => 1%Z
    | n :: numbers => (max_list n numbers + 1)%Z
    end
  end.

End QuestionManager.

(** An [int] for the examples: on a numeral made of ASCII digits it gives
    what [int] gives; the other strings, some of which [int] reads too (a
    sign, white space around the digits), are left out. *)
Definition chiffre (c : N) : option Z :=
  if (48 <=? c)%N && (c <=? 57)%N then Some (Z.of_N c - 48)%Z else None.

Fixpoint int_decimal_from (acc : Z) (t : pystr) : option Z :=
  match t with
  | [] => Some acc
  | c :: r =>
    match chiffre c with
    | Some d => int_decimal_from (acc * 10 + d) r
    | None => None
    end
  end.

Definition int_decimal (t : pystr) : option Z :=
  match t with
  | [] => None
  | _ => int_decimal_from 0 t
  end.

(** More questions and graders for the examples. *)
Definition question_lumiere : question_data :=
  {| titre := Some (py "Photosynthese");
     enonce := Some (py "Que fait la photosynthese ?");
     reponse_attendue := Some (py "La photosynthese convertit la lumiere");
     points_obligatoires := Some (map py ["photosynthese"; "lumiere"]);
     erreurs_a_eviter := Some (map py ["respiration cellulaire"]) |}.

Definition question_dix_erreurs : question_data :=
  {| titre := Some (py "Voyelles");
     enonce := Some (py "Citez les voyelles.");
     reponse_attendue := Some (py "a e i o u y");
     points_obligatoires := Some (map py ["a"; "e"]);
     erreurs_a_eviter :=
       Some (map py ["b"; "c"; "d"; "f"; "g"; "h"; "j"; "k"; "l"; "m"]) |}.

Definition grader_regex_invalide : BaselineGrader :=
  BaselineGrader_init (Some [PStr (py "a"); regex_spec (py "(")]) (Some [])
                      (Some (py "a b")).

Definition grader_interdit_invalide : BaselineGrader :=
  BaselineGrader_init (Some [PStr (py "a")]) (Some [regex_spec (py "(")])
                      (Some (py "a b")).

(** * Facts *)

(** ** Binary64 rounding is monotone and exact on small integers *)

Section Float64Facts.
Local Open Scope Q_scope.

Lemma rne_bounds x : (Qfloor x <= rne x <= Qfloor x + 1)%Z.
Proof.
  unfold rne. destruct (Qcompare _ _); [destruct (Z.even _)| |]; lia.
Qed.

Lemma rne_mono x y : x <= y -> (rne x <= rne y)%Z.
Proof.
  intros Hxy. pose proof (Qfloor_resp_le _ _ Hxy) as Hf.
  pose proof (rne_bounds x) as Bx. pose proof (rne_bounds y) as By.
  destruct (Z.eq_dec (Qfloor x) (Qfloor y)) as [E|NE]; [|lia].
  unfold rne in *. rewrite <- E in *.
  destruct (Qcompare_spec (x - inject_Z (Qfloor x)) (1 # 2));
    destruct (Qcompare_spec (y - inject_Z (Qfloor x)) (1 # 2));
    try lia; try lra; destruct (Z.even _); lia.
Qed.

Lemma rne_inject z : rne (inject_Z z) = z.
Proof.
  unfold rne. rewrite Qfloor_Z.
  destruct (Qcompare_spec (inject_Z z - inject_Z z) (1 # 2)); try lra; reflexivity.
Qed.

#[global] Instance rne_Proper : Proper (Qeq ==> eq) rne.
Proof.
  intros x y E. unfold rne. rewrite (Qfloor_comp _ _ E).
  now rewrite E.
Qed.

Lemma two_pow_pos k : 0 < 2 ^ k.
Proof. apply Qpower_0_lt. reflexivity. Qed.

Lemma two_pow_succ k : 2 ^ (k + 1) == 2 * 2 ^ k.
Proof. rewrite Qpower_plus by discriminate. simpl (2 ^ 1). ring. Qed.

Lemma two_pow_add a b : 2 ^ (a + b) == 2 ^ a * 2 ^ b.
Proof. apply Qpower_plus. discriminate. Qed.

Lemma two_pow_le a b : (a <= b)%Z -> 2 ^ a <= 2 ^ b.
Proof. intros. apply Qpower_le_compat_l; [assumption | lra]. Qed.

Lemma two_pow_Z k : (0 <= k)%Z -> 2 ^ k == inject_Z (2 ^ k).
Proof. intros. now rewrite Zpower_Qpower. Qed.

Lemma ilog2_spec q : 0 < q -> 2 ^ ilog2 q <= q /\ q < 2 ^ (ilog2 q + 1).
Proof.
  intros Hq. unfold ilog2.
  set (k := (Z.log2 (Qnum q) - Z.log2 (Z.pos (Qden q)))%Z).
  assert (Hn : (0 < Qnum q)%Z).
  { unfold Qlt in Hq. simpl in Hq. lia. }
  destruct (Z.log2_spec _ Hn) as [Ha1 Ha2].
  destruct (Z.log2_spec (Z.pos (Qden q)) eq_refl) as [Hb1 Hb2].
  pose proof (Z.log2_nonneg (Qnum q)) as Ha0.
  pose proof (Z.log2_nonneg (Z.pos (Qden q))) as Hb0.
  set (a := Z.log2 (Qnum q)) in *. set (b := Z.log2 (Z.pos (Qden q))) in *.
  assert (Hlo : 2 ^ (k - 1) <= q /\ q < 2 ^ (k + 1)).
  { assert (E1 : 2 ^ a == 2 ^ (k - 1) * 2 ^ (b + 1)).
    { rewrite <- two_pow_add. replace (k - 1 + (b + 1))%Z with a by (unfold k; lia). reflexivity. }
    assert (E2 : 2 ^ (a + 1) == 2 ^ (k + 1) * 2 ^ b).
    { rewrite <- two_pow_add. replace (k + 1 + b)%Z with (a + 1)%Z by (unfold k; lia). reflexivity. }
    rewrite (two_pow_Z a) in E1 by lia. rewrite (two_pow_Z (b + 1)) in E1 by lia.
    rewrite (two_pow_Z (a + 1)) in E2 by lia. rewrite (two_pow_Z b) in E2 by lia.
    pose proof (two_pow_pos (k - 1)) as P1. pose proof (two_pow_pos (k + 1)) as P2.
    assert (Hq' : q == inject_Z (Qnum q) / inject_Z (Z.pos (Qden q))).
    { destruct q as [n d]. simpl. apply Qmake_Qdiv. }
    assert (Hd : 0 < inject_Z (Z.pos (Qden q))) by reflexivity.
    rewrite Zle_Qle in Ha1, Hb1. rewrite Zlt_Qlt in Ha2, Hb2.
    split.
    - rewrite Hq'. apply Qle_shift_div_l; [exact Hd|].
      apply Qle_trans with (2 ^ (k - 1) * inject_Z (2 ^ (b + 1))); [|rewrite <- E1; exact Ha1].
      apply Qmult_le_l; [exact P1 | apply Qlt_le_weak; exact Hb2].
    - rewrite Hq'. apply Qlt_shift_div_r; [exact Hd|].
      apply Qlt_le_trans with (inject_Z (2 ^ (a + 1))); [exact Ha2|].
      rewrite E2. apply Qmult_le_l; [exact P2 | exact Hb1]. }
  destruct Hlo as [L1 L2].
  destruct (Qle_bool (2 ^ k) q) eqn:Eb.
  - apply Qle_bool_iff in Eb. split; assumption.
  - split; [assumption|].
    replace (k - 1 + 1)%Z with k by lia.
    apply Qnot_le_lt. intros C. apply Qle_bool_iff in C. congruence.
Qed.

Lemma ilog2_unique q k : 0 < q -> 2 ^ k <= q -> q < 2 ^ (k + 1) -> ilog2 q = k.
Proof.
  intros Hq H1 H2. destruct (ilog2_spec q Hq) as [S1 S2].
  assert (A : (k < ilog2 q + 1)%Z).
  { apply (Qpower_lt_compat_l_inv 2); [|lra]. eapply Qle_lt_trans; eassumption. }
  assert (B : (ilog2 q < k + 1)%Z).
  { apply (Qpower_lt_compat_l_inv 2); [|lra]. eapply Qle_lt_trans; eassumption. }
  lia.
Qed.

Lemma ilog2_mono x y : 0 < x -> x <= y -> (ilog2 x <= ilog2 y)%Z.
Proof.
  intros Hx Hxy. assert (Hy : 0 < y) by lra.
  destruct (ilog2_spec x Hx) as [X1 _]. destruct (ilog2_spec y Hy) as [_ Y2].
  assert (A : (ilog2 x < ilog2 y + 1)%Z).
  { apply (Qpower_lt_compat_l_inv 2); [|lra]. lra. }
  lia.
Qed.

Lemma ilog2_Proper x y : 0 < x -> x == y -> ilog2 x = ilog2 y.
Proof.
  intros Hx E. symmetry. destruct (ilog2_spec x Hx) as [X1 X2].
  apply ilog2_unique; rewrite <- ?E; assumption.
Qed.

Lemma round_at_mono e x y : x <= y -> round_at e x <= round_at e y.
Proof.
  intros H. unfold round_at. pose proof (two_pow_pos e) as P.
  apply Qmult_le_compat_r; [|lra].
  rewrite <- Zle_Qle. apply rne_mono.
  apply Qmult_le_compat_r; [assumption|].
  apply Qlt_le_weak, Qinv_lt_0_compat, P.
Qed.

Lemma round_at_grid e k : (e <= k)%Z -> round_at e (2 ^ k) == 2 ^ k.
Proof.
  intros H. unfold round_at.
  assert (E : 2 ^ k / 2 ^ e == inject_Z (2 ^ (k - e))).
  { rewrite <- two_pow_Z by lia. rewrite Qpower_minus by discriminate. reflexivity. }
  rewrite E, rne_inject, <- two_pow_Z by lia.
  rewrite <- two_pow_add. replace (k - e + e)%Z with k by lia. reflexivity.
Qed.

Lemma fl_pos_eq q : fl_pos q == round_at (ulp_exp q) q.
Proof. unfold fl_pos. apply Qred_correct. Qed.

Lemma fl_pos_mono x y : 0 < x -> x <= y -> fl_pos x <= fl_pos y.
Proof.
  intros Hx Hxy. assert (Hy : 0 < y) by lra.
  rewrite !fl_pos_eq.
  pose proof (ilog2_mono x y Hx Hxy) as Hi.
  destruct (ilog2_spec x Hx) as [X1 X2]. destruct (ilog2_spec y Hy) as [Y1 Y2].
  destruct (Z.eq_dec (ulp_exp x) (ulp_exp y)) as [E|NE].
  - rewrite E. now apply round_at_mono.
  - assert (L : (ulp_exp x < ulp_exp y)%Z) by (unfold ulp_exp in *; lia).
    assert (Hk : (ilog2 x + 1 <= ilog2 y)%Z) by (unfold ulp_exp in *; lia).
    apply Qle_trans with (2 ^ ilog2 y).
    + rewrite <- (round_at_grid (ulp_exp x) (ilog2 y)) by (unfold ulp_exp in *; lia).
      apply round_at_mono.
      apply Qle_trans with (2 ^ (ilog2 x + 1)); [lra | now apply two_pow_le].
    + rewrite <- (round_at_grid (ulp_exp y) (ilog2 y)) at 1 by (unfold ulp_exp in *; lia).
      now apply round_at_mono.
Qed.

Lemma fl_pos_nonneg q : 0 < q -> 0 <= fl_pos q.
Proof.
  intros Hq. rewrite fl_pos_eq. unfold round_at.
  pose proof (two_pow_pos (ulp_exp q)) as P.
  apply Qmult_le_0_compat; [|lra].
  replace 0 with (inject_Z 0) by reflexivity. rewrite <- Zle_Qle.
  rewrite <- (rne_inject 0). apply rne_mono.
  apply Qlt_le_weak, Qlt_shift_div_l; [assumption | change (inject_Z 0) with 0; lra].
Qed.

Lemma fl_pos_Proper x y : 0 < x -> x == y -> fl_pos x == fl_pos y.
Proof.
  intros Hx E. rewrite !fl_pos_eq. unfold ulp_exp.
  rewrite (ilog2_Proper x y Hx E). unfold round_at. now rewrite E.
Qed.

Lemma Qnum_sign q :
  match Qnum q with Z0 => q == 0 | Zpos _ => 0 < q | Zneg _ => q < 0 end.
Proof. destruct q as [[|n|n] d]; reflexivity. Qed.

Theorem fl_mono x y : x <= y -> fl x <= fl y.
Proof.
  intros H. unfold fl.
  pose proof (Qnum_sign x) as Sx. pose proof (Qnum_sign y) as Sy.
  destruct (Qnum x), (Qnum y); try lra.
  - now apply fl_pos_nonneg.
  - now apply fl_pos_mono.
  - rewrite Qred_correct. assert (0 <= fl_pos (- x)) by (apply fl_pos_nonneg; lra). lra.
  - rewrite Qred_correct. assert (0 <= fl_pos (- x)) by (apply fl_pos_nonneg; lra).
    pose proof (fl_pos_nonneg y Sy). lra.
  - rewrite !Qred_correct.
    assert (fl_pos (- y) <= fl_pos (- x)) by (apply fl_pos_mono; lra). lra.
Qed.

#[global] Instance fl_Proper : Proper (Qeq ==> Qeq) fl.
Proof.
  intros x y E. unfold fl.
  pose proof (Qnum_sign x) as Sx. pose proof (Qnum_sign y) as Sy.
  destruct (Qnum x), (Qnum y); try lra.
  - now apply fl_pos_Proper.
  - rewrite !Qred_correct. apply Qopp_comp. apply fl_pos_Proper; lra.
Qed.

Lemma round_at_int e z : (e <= 0)%Z -> round_at e (inject_Z z) == inject_Z z.
Proof.
  intros H. unfold round_at.
  assert (E : inject_Z z / 2 ^ e == inject_Z (z * 2 ^ (- e))).
  { rewrite inject_Z_mult, <- two_pow_Z by lia. rewrite Qpower_opp. reflexivity. }
  rewrite E, rne_inject, inject_Z_mult, <- two_pow_Z by lia.
  rewrite <- Qmult_assoc, <- two_pow_add.
  replace (- e + e)%Z with 0%Z by lia. simpl (2 ^ 0). ring.
Qed.

Lemma fl_int z : (0 <= z < 2 ^ 53)%Z -> fl (inject_Z z) == inject_Z z.
Proof.
  intros [H0 H1]. unfold fl. simpl (Qnum (inject_Z z)).
  destruct z as [|p|p]; [reflexivity| |lia].
  rewrite fl_pos_eq. apply round_at_int.
  assert (Hp : 0 < inject_Z (Z.pos p)) by reflexivity.
  destruct (ilog2_spec _ Hp) as [S1 _].
  assert (L : 2 ^ ilog2 (inject_Z (Z.pos p)) < 2 ^ 53).
  { eapply Qle_lt_trans; [exact S1|].
    rewrite (two_pow_Z 53) by lia. rewrite <- Zlt_Qlt. exact H1. }
  apply Qpower_lt_compat_l_inv in L; [|reflexivity].
  unfold ulp_exp, emin. lia.
Qed.

Lemma fl_of_nat n : (Z.of_nat n < 2 ^ 53)%Z -> fl (of_nat n) == of_nat n.
Proof. intros H. apply fl_int. lia. Qed.

Lemma fl_nonneg x : 0 <= x -> 0 <= fl x.
Proof. intros H. change 0 with (fl 0). now apply fl_mono. Qed.

Lemma ten_pow_pos n : 0 < inject_Z (10 ^ Z.of_nat n).
Proof.
  change 0 with (inject_Z 0). rewrite <- Zlt_Qlt.
  apply Z.pow_pos_nonneg; lia.
Qed.

Lemma py_round_mono x y n : x <= y -> py_round x n <= py_round y n.
Proof.
  intros H. unfold py_round. pose proof (ten_pow_pos n) as P.
  apply fl_mono. apply Qmult_le_compat_r.
  - rewrite <- Zle_Qle. apply rne_mono. apply Qmult_le_compat_r; [assumption | lra].
  - apply Qlt_le_weak, Qinv_lt_0_compat, P.
Qed.

Lemma py_round_1_bounds x : 0 <= x -> x <= 100 -> 0 <= py_round x 1 /\ py_round x 1 <= 100.
Proof.
  intros H0 H1. split.
  - apply Qle_trans with (py_round 0 1); [vm_compute; discriminate|].
    now apply py_round_mono.
  - apply Qle_trans with (py_round 100 1); [now apply py_round_mono|].
    vm_compute; discriminate.
Qed.

(** Rounding to the nearest integer adds a half at most. *)
Lemma rne_half x : inject_Z (rne x) <= x + (1 # 2).
Proof.
  unfold rne. pose proof (Qfloor_le x) as Hf.
  destruct (Qcompare_spec (x - inject_Z (Qfloor x)) (1 # 2)) as [E|L|G].
  - destruct (Z.even _); [lra|]. rewrite inject_Z_plus. change (inject_Z 1) with 1. lra.
  - lra.
  - rewrite inject_Z_plus. change (inject_Z 1) with 1. lra.
Qed.

(** The relative error of a rounding is [2^-53] at most, above the
    subnormal numbers. *)
Lemma fl_upper x : 2 ^ (-1022) <= x -> fl x <= x + x * 2 ^ (-53).
Proof.
  intros Hx. pose proof (two_pow_pos (-1022)) as P0.
  assert (Hpos : 0 < x) by lra.
  unfold fl. pose proof (Qnum_sign x) as S. destruct (Qnum x); [lra| |lra].
  rewrite fl_pos_eq.
  assert (Hi : (-1022 <= ilog2 x)%Z).
  { rewrite <- (ilog2_unique (2 ^ (-1022)) (-1022)).
    - apply ilog2_mono; assumption.
    - exact P0.
    - lra.
    - rewrite two_pow_succ. lra. }
  unfold ulp_exp. rewrite Z.max_l by (unfold emin; lia).
  set (e := (ilog2 x - 52)%Z). unfold round_at.
  pose proof (two_pow_pos e) as Pe.
  pose proof (rne_half (x / 2 ^ e)) as Hr.
  apply Qle_trans with ((x / 2 ^ e + (1 # 2)) * 2 ^ e).
  - apply Qmult_le_compat_r; [exact Hr | lra].
  - assert (E : (x / 2 ^ e + (1 # 2)) * 2 ^ e == x + (1 # 2) * 2 ^ e) by (field; lra).
    rewrite E.
    assert (E2 : (1 # 2) * 2 ^ e == 2 ^ ilog2 x * 2 ^ (-53)).
    { unfold e. replace (ilog2 x - 52)%Z with (ilog2 x + -52)%Z by lia.
      rewrite two_pow_add.
      assert (E3 : 2 ^ (-52) == 2 * 2 ^ (-53)) by (vm_compute; reflexivity).
      rewrite E3. ring. }
    rewrite E2. destruct (ilog2_spec x Hpos) as [S1 _].
    assert (0 < 2 ^ (-53)) by apply two_pow_pos.
    apply Qplus_le_r. apply Qmult_le_compat_r; lra.
Qed.

End Float64Facts.

(** ** Splitting, joining and searching *)

Section StringFacts.
Context {R : Runtime}.

Lemma str_split_from_app cur w r :
  no_space w -> str_split_from cur (w ++ r) = str_split_from (cur ++ w) r.
Proof.
  intros Hw. revert cur. induction Hw as [|c w Hc Hw IH]; intros cur.
  - now rewrite app_nil_r.
  - simpl. rewrite Hc, IH, <- app_assoc. reflexivity.
Qed.

Lemma str_split_from_words cur t :
  no_space cur ->
  Forall (fun w => w <> [] /\ no_space w /\ forall c, c ∈ w -> c ∈ cur \/ c ∈ t)
         (str_split_from cur t).
Proof.
  revert cur. induction t as [|c r IH]; intros cur Hcur.
  - simpl. destruct cur as [|c0 cur]; constructor; [|constructor].
    split; [discriminate|]. split; [assumption|]. intros c Hc. now left.
  - simpl. destruct (str_isspace c) eqn:Ec.
    + assert (Hr : Forall (fun w => w <> [] /\ no_space w /\
                                    forall c0, c0 ∈ w -> c0 ∈ cur \/ c0 ∈ c :: r)
                          (str_split_from [] r)).
      { eapply Forall_impl; [apply IH; constructor|].
        intros w (Hn & Hs & Hin). split; [assumption|]. split; [assumption|].
        intros c0 Hc0. destruct (Hin c0 Hc0) as [H|H]; [inversion H|].
        right. now constructor. }
      destruct cur as [|c0 cur]; [exact Hr|].
      constructor; [|exact Hr].
      split; [discriminate|]. split; [assumption|]. intros c1 Hc1. now left.
    + eapply Forall_impl.
      * apply IH. apply Forall_app. split; [assumption|]. now repeat constructor.
      * intros w (Hn & Hs & Hin). split; [assumption|]. split; [assumption|].
        intros c0 Hc0. destruct (Hin c0 Hc0) as [H|H].
        -- apply elem_of_app in H as [H|H]; [now left|].
           apply list_elem_of_singleton in H. subst. right. constructor.
        -- right. now constructor.
Qed.

Lemma str_split_words t :
  Forall (fun w => w <> [] /\ no_space w /\ forall c, c ∈ w -> c ∈ t) (str_split t).
Proof.
  eapply Forall_impl; [apply (str_split_from_words [] t); constructor|].
  intros w (Hn & Hs & Hin). split; [assumption|]. split; [assumption|].
  intros c Hc. destruct (Hin c Hc) as [H|H]; [inversion H | assumption].
Qed.

(** Splitting what was joined with single spaces gives the words back. *)
Lemma str_split_join ws :
  str_isspace 32 = true ->
  Forall (fun w => w <> [] /\ no_space w) ws ->
  str_split (str_join [32%N] ws) = ws.
Proof.
  intros H32 Hws. unfold str_split. induction Hws as [|w ws [Hn Hs] Hws IH].
  - reflexivity.
  - destruct ws as [|w' ws'].
    + simpl. rewrite <- (app_nil_r w) at 1. rewrite str_split_from_app by assumption.
      simpl. destruct w; [congruence | reflexivity].
    + change (str_join [32%N] (w :: w' :: ws'))
        with (w ++ 32%N :: str_join [32%N] (w' :: ws')).
      remember (str_join [32%N] (w' :: ws')) as tl eqn:Etl.
      rewrite str_split_from_app by assumption. simpl app.
      change (str_split_from w (32%N :: tl))
        with (if str_isspace 32
              then match w with
                   | [] => str_split_from [] tl
                   | _ => w :: str_split_from [] tl
                   end
              else str_split_from (w ++ [32%N]) tl).
      rewrite H32, IH.
      destruct w; [congruence | reflexivity].
Qed.

Lemma elem_of_str_join sep ws c :
  c ∈ str_join sep ws -> c ∈ sep \/ exists w, w ∈ ws /\ c ∈ w.
Proof.
  induction ws as [|w ws IH]; simpl.
  - intros H. inversion H.
  - destruct ws as [|w' ws'].
    + intros H. right. exists w. split; [constructor | assumption].
    + intros H. apply elem_of_app in H as [H|H].
      * right. exists w. split; [constructor | assumption].
      * apply elem_of_app in H as [H|H]; [now left|].
        destruct (IH H) as [?|(w0 & Hw0 & Hc)]; [now left|].
        right. exists w0. split; [now constructor | assumption].
Qed.

(** [str_contains t p] decides that [p] occurs in [t]. *)
Lemma str_startswith_spec t p :
  str_startswith t p = true <-> exists r, t = p ++ r.
Proof.
  revert t. induction p as [|x p IH]; intros t.
  - split; [intros _; now exists t | intros _; now destruct t].
  - destruct t as [|y t]; simpl.
    + split; [discriminate | intros [r Hr]; discriminate].
    + rewrite andb_true_iff, N.eqb_eq, IH. split.
      * intros [-> [r ->]]. now exists r.
      * intros [r Hr]. injection Hr as -> ->. split; [reflexivity | now exists r].
Qed.

Lemma str_contains_spec t p :
  str_contains t p = true <-> exists l r, t = l ++ p ++ r.
Proof.
  induction t as [|y t IH].
  - change (str_contains [] p) with (str_startswith [] p || false).
    rewrite orb_false_r, str_startswith_spec. split.
    + intros [r Hr]. now exists [], r.
    + intros (l & r & H). destruct l; [now exists r | discriminate].
  - change (str_contains (y :: t) p)
      with (str_startswith (y :: t) p || str_contains t p).
    rewrite orb_true_iff, str_startswith_spec, IH. split.
    + intros [[r Hr] | (l & r & ->)]; [now exists [], r | now exists (y :: l), r].
    + intros (l & r & H). destruct l as [|z l].
      * left. now exists r.
      * right. injection H as -> ->. now exists l, r.
Qed.

End StringFacts.

(** ** The normaliser *)

Section NormaliserFacts.
Context {R : Runtime}.
Hypothesis laws : RuntimeLaws R.

(** The words of a normalised text: not empty, without white space, made of
    word characters that [str.lower] leaves unchanged. *)
Lemma normaliser_words x :
  Forall (fun w => w <> [] /\ no_space w /\
                   forall c, c ∈ w ->
                     str_lower [c] = [c] /\ (is_word c || str_isspace c = true))
         (str_split (sub_ponctuation (str_lower x))).
Proof.
  eapply Forall_impl; [apply str_split_words|].
  intros w (Hn & Hs & Hin). split; [assumption|]. split; [assumption|].
  intros c Hc. pose proof (Hin c Hc) as Hm.
  unfold sub_ponctuation in Hm.
  apply list_elem_of_In, in_map_iff in Hm as (c0 & E & Hc0).
  apply list_elem_of_In in Hc0.
  unfold no_space in Hs. rewrite Forall_forall in Hs. specialize (Hs c Hc).
  destruct (is_word c0 || str_isspace c0) eqn:K.
  - subst c0. split; [|assumption].
    eapply lower_produces_settled; eassumption.
  - subst c. rewrite (isspace_space R laws) in Hs. discriminate.
Qed.

Lemma sub_ponctuation_fixed z :
  (forall c, c ∈ z -> c = 32%N \/ (is_word c || str_isspace c = true)) ->
  sub_ponctuation z = z.
Proof.
  induction z as [|c z IH]; intros H; [reflexivity|].
  unfold sub_ponctuation in *. simpl. f_equal.
  - destruct (H c ltac:(constructor)) as [->|K].
    + now destruct (_ || _).
    + now rewrite K.
  - apply IH. intros c0 Hc0. apply H. now constructor.
Qed.

(** C7: the text normaliser is a total function and it is idempotent:
    normalising a normalised text changes nothing. *)
Theorem normaliser_texte_idempotent (x : pystr) :
  normaliser_texte (normaliser_texte x) = normaliser_texte x.
Proof.
  unfold normaliser_texte. change (py " ") with [32%N].
  pose proof (normaliser_words x) as Hws.
  set (ws := str_split (sub_ponctuation (str_lower x))) in *.
  assert (Hc : forall c, c ∈ str_join [32%N] ws ->
                 c = 32%N \/ (str_lower [c] = [c] /\ (is_word c || str_isspace c = true))).
  { intros c Hc. apply elem_of_str_join in Hc as [Hc|(w & Hw & Hc)].
    - left. now apply list_elem_of_singleton in Hc.
    - right. rewrite Forall_forall in Hws.
      destruct (Hws w Hw) as (_ & _ & Hin). now apply Hin. }
  assert (A : str_lower (str_join [32%N] ws) = str_join [32%N] ws).
  { apply (lower_of_settled R laws). intros c H.
    destruct (Hc c H) as [->|[Hl _]]; [apply (lower_space R laws) | exact Hl]. }
  rewrite A.
  rewrite sub_ponctuation_fixed.
  - rewrite str_split_join; [reflexivity | apply (isspace_space R laws) |].
    eapply Forall_impl; [exact Hws|]. intros w (Hn & Hs & _). now split.
  - intros c H. destruct (Hc c H) as [->|[_ K]]; [now left | now right].
Qed.

End NormaliserFacts.

(** The runtime [latin1] satisfies the laws. *)
Lemma latin1_capital_spec c :
  in_ranges [(65, 90); (192, 214); (216, 222)]%N c = true <->
  (65 <= c <= 90 \/ 192 <= c <= 214 \/ 216 <= c <= 222)%N.
Proof.
  unfold in_ranges. cbn [existsb fst snd].
  rewrite !orb_true_iff, !andb_true_iff, !N.leb_le. intuition discriminate.
Qed.

Lemma latin1_lower_char_idempotent c :
  latin1_lower_char (latin1_lower_char c) = latin1_lower_char c.
Proof.
  unfold latin1_lower_char.
  destruct (in_ranges _ c) eqn:E.
  - apply latin1_capital_spec in E.
    destruct (in_ranges _ (c + 32)) eqn:E2; [|reflexivity].
    apply latin1_capital_spec in E2. lia.
  - now rewrite E.
Qed.

Lemma latin1_laws : RuntimeLaws latin1.
Proof.
  split.
  - reflexivity.
  - reflexivity.
  - intros t c Hc. simpl in *.
    apply list_elem_of_In, in_map_iff in Hc as (c0 & <- & _).
    now rewrite latin1_lower_char_idempotent.
  - intros z Hz. simpl in *. induction z as [|c z IH]; [reflexivity|].
    simpl. f_equal.
    + specialize (Hz c ltac:(constructor)). now injection Hz.
    + apply IH. intros c0 Hc0. apply Hz. now constructor.
Qed.

(** The normaliser is idempotent on a text with capitals, punctuation and
    runs of white space. *)
Lemma normaliser_texte_idempotent_witness :
  normaliser_texte (R := latin1) (normaliser_texte (R := latin1) (py "  La Photo-synthese,  OUI ! "))
  = normaliser_texte (R := latin1) (py "  La Photo-synthese,  OUI ! ").
Proof. apply (normaliser_texte_idempotent latin1_laws). Defined.

(** ** Required and forbidden points *)

(** Reading a key of the dictionary [evaluer_reponse_local] returns. *)
Ltac lookup_local :=
  unfold evaluer_reponse_local; cbv zeta;
  repeat (rewrite lookup_insert_ne by discriminate);
  rewrite lookup_insert_eq; reflexivity.

Section PointsFacts.
Context {R : Runtime}.
Variable self : ReponseAnalyzer.

Lemma fold_classer rn mk l v :
  fold_left (classer self rn mk) l v =
  {| presents := presents v ++ List.filter (element_present rn) l;
     absents := absents v ++
       List.filter (fun e => negb (element_present rn e)
                             && negb (element_partiel self mk e)) l;
     partiels := partiels v ++
       List.filter (fun e => negb (element_present rn e)
                             && element_partiel self mk e) l |}.
Proof.
  revert v. induction l as [|e l IH]; intros v.
  - simpl. rewrite !app_nil_r. now destruct v.
  - simpl. rewrite IH. unfold classer.
    destruct (element_present rn e); simpl;
      [|destruct (element_partiel self mk e); simpl];
      now rewrite <- ?app_assoc.
Qed.

Lemma detecter_erreurs_filter reponse l :
  detecter_erreurs reponse l =
  List.filter (element_present (normaliser_texte reponse)) l.
Proof.
  unfold detecter_erreurs.
  enough (G : forall acc,
             fold_left (fun acc e =>
                          if str_contains (normaliser_texte reponse) (normaliser_texte e)
                          then acc ++ [e] else acc) l acc
             = acc ++ List.filter (element_present (normaliser_texte reponse)) l)
    by apply (G []).
  induction l as [|e l IH]; intros acc; simpl.
  - now rewrite app_nil_r.
  - rewrite IH. unfold element_present.
    destruct (str_contains _ _); [now rewrite <- app_assoc | reflexivity].
Qed.

Lemma filter_three_way {A} (f g : A -> bool) (l : list A) :
  List.filter f l
  ++ List.filter (fun e => negb (f e) && g e) l
  ++ List.filter (fun e => negb (f e) && negb (g e)) l
  ≡ₚ l.
Proof.
  induction l as [|e l IH]; [reflexivity|].
  simpl. destruct (f e); simpl.
  - now constructor.
  - destruct (g e); simpl.
    + rewrite <- Permutation_middle. now constructor.
    + rewrite app_assoc, <- Permutation_middle, <- app_assoc. now constructor.
Qed.

Lemma elem_of_filter {A} (f : A -> bool) (l : list A) (x : A) :
  x ∈ List.filter f l <-> x ∈ l /\ f x = true.
Proof. rewrite !list_elem_of_In. apply filter_In. Qed.

Lemma filter_sublist {A} (f : A -> bool) (l : list A) : sublist (List.filter f l) l.
Proof.
  induction l as [|e l IH]; simpl; [constructor|].
  destruct (f e); now constructor.
Qed.

Lemma local_elements_presents q rep :
  evaluer_reponse_local self q rep !! "elements_presents" =
  Some (PStrs (presents (verifier_presence_elements self rep
                           (default [] (points_obligatoires q))))).
Proof. lookup_local. Qed.

Lemma local_elements_partiels q rep :
  evaluer_reponse_local self q rep !! "elements_partiels" =
  Some (PStrs (partiels (verifier_presence_elements self rep
                           (default [] (points_obligatoires q))))).
Proof. lookup_local. Qed.

Lemma local_elements_absents q rep :
  evaluer_reponse_local self q rep !! "elements_absents" =
  Some (PStrs (absents (verifier_presence_elements self rep
                          (default [] (points_obligatoires q))))).
Proof. lookup_local. Qed.

Lemma local_erreurs_detectees q rep :
  evaluer_reponse_local self q rep !! "erreurs_detectees" =
  Some (PStrs (detecter_erreurs rep (default [] (erreurs_a_eviter q)))).
Proof. lookup_local. Qed.

(** C2: the lists of found, partial and missing points that the local
    pipeline returns hold every required point exactly once, each point in
    one list only, and every violation it returns is a forbidden point of
    the rubric. *)
Theorem local_points_partition (q : question_data) (rep : pystr) :
  let requis := default [] (points_obligatoires q) in
  let interdits := default [] (erreurs_a_eviter q) in
  let r := evaluer_reponse_local self q rep in
  exists F P M V : list pystr,
    r !! "elements_presents" = Some (PStrs F) /\
    r !! "elements_partiels" = Some (PStrs P) /\
    r !! "elements_absents" = Some (PStrs M) /\
    r !! "erreurs_detectees" = Some (PStrs V) /\
    F ++ P ++ M ≡ₚ requis /\
    (forall p, p ∈ requis ->
       (p ∈ F /\ (p ∉ P) /\ (p ∉ M)) \/
       ((p ∉ F) /\ p ∈ P /\ (p ∉ M)) \/
       ((p ∉ F) /\ (p ∉ P) /\ p ∈ M)) /\
    sublist V interdits /\
    (forall e, e ∈ V -> e ∈ interdits).
Proof.
  intros requis interdits r.
  exists (presents (verifier_presence_elements self rep requis)),
         (partiels (verifier_presence_elements self rep requis)),
         (absents (verifier_presence_elements self rep requis)),
         (detecter_erreurs rep interdits).
  split; [apply local_elements_presents|].
  split; [apply local_elements_partiels|].
  split; [apply local_elements_absents|].
  split; [apply local_erreurs_detectees|].
  unfold verifier_presence_elements. rewrite fold_classer. simpl.
  set (f := element_present (normaliser_texte rep)).
  set (g := element_partiel self (extraire_mots_cles self rep)).
  split; [apply filter_three_way|].
  split.
  - intros p Hp. rewrite !elem_of_filter.
    destruct (f p) eqn:Ef; [|destruct (g p) eqn:Eg]; simpl.
    + left. intuition congruence.
    + right. left. intuition congruence.
    + right. right. intuition congruence.
  - rewrite detecter_erreurs_filter. split.
    + apply filter_sublist.
    + intros e He. now apply elem_of_filter in He.
Qed.

End PointsFacts.

(** ** The local score *)

Section NumberFacts.
Local Open Scope Q_scope.

Lemma Qltb_spec a b : Qltb a b = true <-> a < b.
Proof.
  unfold Qltb. rewrite negb_true_iff. split.
  - intros H. apply Qnot_le_lt. intros C. apply Qle_bool_iff in C. congruence.
  - intros H. destruct (Qle_bool b a) eqn:E; [|reflexivity].
    apply Qle_bool_iff in E. lra.
Qed.

Lemma Qltb_false a b : Qltb a b = false <-> b <= a.
Proof.
  unfold Qltb. rewrite negb_false_iff. apply Qle_bool_iff.
Qed.

Lemma max_0_val x : number_val (max_0 x) == Qmax 0 x.
Proof.
  unfold max_0. destruct (Qltb 0 x) eqn:E; simpl.
  - apply Qltb_spec in E. symmetry. apply Q.max_r. lra.
  - apply Qltb_false in E. symmetry. now apply Q.max_l.
Qed.

Lemma max_0_mono x y : x <= y -> number_val (max_0 x) <= number_val (max_0 y).
Proof.
  intros H. rewrite !max_0_val. apply Q.max_le_compat_l, H.
Qed.

Lemma py_number_number n : py_number (number_pyval n) = Some (number_val n).
Proof. now destruct n. Qed.

#[global] Instance py_round_Proper : Proper (Qeq ==> eq ==> Qeq) py_round.
Proof.
  intros x y E n ? <-. unfold py_round. now rewrite E.
Qed.

Lemma py_round_0 n : py_round 0 n == 0.
Proof.
  unfold py_round. rewrite Qmult_0_l.
  change (rne 0) with 0%Z.
  assert (E : inject_Z 0 / inject_Z (10 ^ Z.of_nat n) == 0).
  { unfold Qdiv. apply Qmult_0_l. }
  now rewrite E.
Qed.

(** The number [round(max(0, x), ndigits)] stands for. *)
Lemma round_max_0_val x n :
  number_val (round_number (max_0 x) n) == py_round (Qmax 0 x) n.
Proof.
  unfold max_0. destruct (Qltb 0 x) eqn:E; simpl.
  - apply Qltb_spec in E. rewrite Q.max_r by lra. reflexivity.
  - apply Qltb_false in E. rewrite Q.max_l by assumption.
    symmetry. apply py_round_0.
Qed.

End NumberFacts.

Section LocalScoreFacts.
Context {R : Runtime}.
Variable self : ReponseAnalyzer.
Local Open Scope Q_scope.

Lemma local_score q rep :
  let pts := default [] (points_obligatoires q) in
  let s := calculer_similarite self rep (default [] (reponse_attendue q)) in
  let v := verifier_presence_elements self rep pts in
  let V := detecter_erreurs rep (default [] (erreurs_a_eviter q)) in
  evaluer_reponse_local self q rep !! "score" =
  Some (number_pyval (round_number (score_final s v V pts) 1)).
Proof. lookup_local. Qed.

Lemma local_est_correct q rep :
  let pts := default [] (points_obligatoires q) in
  let s := calculer_similarite self rep (default [] (reponse_attendue q)) in
  let v := verifier_presence_elements self rep pts in
  let V := detecter_erreurs rep (default [] (erreurs_a_eviter q)) in
  evaluer_reponse_local self q rep !! "est_correct" =
  Some (PBool (est_correct (score_final s v V pts) v V)).
Proof. lookup_local. Qed.

(** C1, amended: with [s] the similarity, [F], [P], [M] the found, partial
    and missing required points and [V] the violations, the local pipeline
    computes [base = s * 100], replaces it by
    [base * 0.4 + ((|F| + |P| * 0.5) / total) * 60] when the rubric has a
    required point, and takes [final = max(0, base - 10 * |V|)], all in
    binary64 arithmetic.  The score it returns is [final] rounded to one
    decimal, and [est_correct] holds exactly when [final >= 60] (the value
    before rounding), [V] is empty and [M] is empty. *)
Theorem local_score_formula (q : question_data) (rep : pystr) :
  let pts := default [] (points_obligatoires q) in
  let s := calculer_similarite self rep (default [] (reponse_attendue q)) in
  let v := verifier_presence_elements self rep pts in
  let V := detecter_erreurs rep (default [] (erreurs_a_eviter q)) in
  let r := evaluer_reponse_local self q rep in
  let base0 := fmul s 100 in
  let coverage :=
    fdiv (fadd (of_nat (length (presents v)))
               (fmul (of_nat (length (partiels v))) (1 # 2)))
         (of_nat (length pts)) in
  let base :=
    match pts with
    | [] => base0
    | _ => fadd (fmul base0 (fl (4 # 10))) (fmul coverage 60)
    end in
  let final := Qmax 0 (fsub base (10 * of_nat (length V))) in
  exists (score : pyval) (x : Q) (correct : bool),
    r !! "score" = Some score /\
    py_number score = Some x /\
    x == py_round final 1 /\
    r !! "est_correct" = Some (PBool correct) /\
    (correct = true <-> 60 <= final /\ V = [] /\ absents v = []).
Proof.
  intros pts s v V r base0 coverage base final.
  exists (number_pyval (round_number (score_final s v V pts) 1)),
         (number_val (round_number (score_final s v V pts) 1)),
         (est_correct (score_final s v V pts) v V).
  assert (Hfinal : number_val (score_final s v V pts) == final).
  { unfold score_final. rewrite max_0_val. unfold final, fsub.
    apply Q.max_compat; [reflexivity|]. apply fl_Proper.
    assert (Eb : score_base s v pts = base) by (unfold score_base, base; now destruct pts).
    rewrite Eb. unfold of_nat. rewrite inject_Z_mult. ring. }
  split; [apply local_score|].
  split; [apply py_number_number|].
  split.
  { unfold score_final. rewrite round_max_0_val.
    apply py_round_Proper; [|reflexivity].
    rewrite <- max_0_val. exact Hfinal. }
  split; [apply local_est_correct|].
  unfold est_correct. rewrite !andb_true_iff, Qle_bool_iff, Hfinal.
  destruct V; destruct (absents v); simpl; intuition (try discriminate; try reflexivity).
Qed.

End LocalScoreFacts.

(** C1, counterexample: seven required points of which the reply [a] holds
    one, no resemblance with the expected answer [z].  The formula gives
    [60/7] in binary64, that is 8.571428571428571; the score returned is
    8.6. *)
Lemma local_score_formula_counterexample :
  let q := question_alphabet in
  let rep := py "a" in
  let pts := default [] (points_obligatoires q) in
  let s := calculer_similarite (R := latin1) analyzer_local rep
             (default [] (reponse_attendue q)) in
  let v := verifier_presence_elements (R := latin1) analyzer_local rep pts in
  let V := detecter_erreurs (R := latin1) rep (default [] (erreurs_a_eviter q)) in
  let final := number_val (score_final s v V pts) in
  final = (4825285315039817 # 562949953421312)%Q /\
  evaluer_reponse_local (R := latin1) analyzer_local q rep !! "score"
  = Some (PFloat (FFin (4841369599423283 # 562949953421312)%Q)) /\
  ~ ((4841369599423283 # 562949953421312) == final)%Q.
Proof.
  cbv zeta. split; [vm_compute; reflexivity|].
  split; [vm_compute; reflexivity|].
  vm_compute. discriminate.
Qed.

(** ** Bounds of the scores *)

Section BoundsFacts.
Context {R : Runtime}.
Local Open Scope Q_scope.

Lemma of_nat_nonneg n : 0 <= of_nat n.
Proof. unfold of_nat. change 0 with (inject_Z 0). rewrite <- Zle_Qle. lia. Qed.

Lemma of_nat_le n m : (n <= m)%nat -> of_nat n <= of_nat m.
Proof. intros H. unfold of_nat. rewrite <- Zle_Qle. lia. Qed.

Lemma of_nat_plus n m : of_nat (n + m) == of_nat n + of_nat m.
Proof. unfold of_nat. now rewrite Nat2Z.inj_add, inject_Z_plus. Qed.

(** The required points that are found or partly found are not more than
    the required points. *)
Lemma verification_lengths (self : ReponseAnalyzer) rep pts :
  let v := verifier_presence_elements self rep pts in
  (length (presents v) + length (partiels v) + length (absents v) = length pts)%nat.
Proof.
  unfold verifier_presence_elements. rewrite fold_classer. simpl.
  rewrite <- (Permutation_length
                (filter_three_way (element_present (normaliser_texte rep))
                   (element_partiel self (extraire_mots_cles self rep)) pts)).
  rewrite !length_app. lia.
Qed.

Lemma score_base_le_100 s (v : verification) pts :
  s <= 1 ->
  (length (presents v) + length (partiels v) <= length pts)%nat ->
  (Z.of_nat (length pts) < 2 ^ 53)%Z ->
  score_base s v pts <= 100.
Proof.
  intros Hs Hlen Hn. unfold score_base.
  assert (A : fmul s 100 <= 100).
  { unfold fmul. apply Qle_trans with (fl 100); [apply fl_mono; lra|].
    vm_compute; discriminate. }
  destruct pts as [|p0 pts']; [exact A|].
  set (n := length (p0 :: pts')) in *.
  set (F := length (presents v)) in *. set (P := length (partiels v)) in *.
  assert (Hn0 : 0 < of_nat n).
  { unfold of_nat, n. simpl length. change 0 with (inject_Z 0).
    rewrite <- Zlt_Qlt. lia. }
  assert (B : fmul (fmul s 100) c_0_4 <= 40).
  { unfold fmul at 1. apply Qle_trans with (fl (100 * c_0_4)).
    - apply fl_mono. apply Qmult_le_compat_r; [exact A | vm_compute; discriminate].
    - vm_compute; discriminate. }
  assert (C1 : fmul (of_nat P) c_0_5 <= of_nat P).
  { unfold fmul. rewrite <- (fl_of_nat P) at 2 by lia.
    apply fl_mono. pose proof (of_nat_nonneg P). unfold c_0_5. lra. }
  assert (C2 : fadd (of_nat F) (fmul (of_nat P) c_0_5) <= of_nat n).
  { unfold fadd. rewrite <- (fl_of_nat n) by lia. apply fl_mono.
    apply Qle_trans with (of_nat F + of_nat P); [lra|].
    rewrite <- of_nat_plus. now apply of_nat_le. }
  assert (C3 : fdiv (fadd (of_nat F) (fmul (of_nat P) c_0_5)) (of_nat n) <= 1).
  { unfold fdiv. apply Qle_trans with (fl 1); [|vm_compute; discriminate].
    apply fl_mono. apply Qle_shift_div_r; [exact Hn0 | lra]. }
  assert (D : fmul (fdiv (fadd (of_nat F) (fmul (of_nat P) c_0_5)) (of_nat n)) 60 <= 60).
  { unfold fmul at 1. apply Qle_trans with (fl 60); [|vm_compute; discriminate].
    apply fl_mono. lra. }
  unfold fadd at 1. apply Qle_trans with (fl (40 + 60)); [|vm_compute; discriminate].
  apply fl_mono. lra.
Qed.

Lemma local_score_bounds (self : ReponseAnalyzer) q rep :
  calculer_similarite self rep (default [] (reponse_attendue q)) <= 1 ->
  (Z.of_nat (length (default [] (points_obligatoires q))) < 2 ^ 53)%Z ->
  exists x, score_of (evaluer_reponse_local self q rep) = Some x /\ 0 <= x /\ x <= 100.
Proof.
  intros Hs Hn. unfold score_of. rewrite local_score. cbv zeta.
  rewrite py_number_number. eexists. split; [reflexivity|].
  unfold score_final. rewrite round_max_0_val.
  apply py_round_1_bounds.
  - apply Q.le_max_l.
  - apply Q.max_lub; [lra|].
    unfold fsub. apply Qle_trans with (fl 100); [|vm_compute; discriminate].
    apply fl_mono.
    pose proof (verification_lengths self rep (default [] (points_obligatoires q))) as Hl.
    cbv zeta in Hl.
    assert (Hb := score_base_le_100 _
                    (verifier_presence_elements self rep (default [] (points_obligatoires q)))
                    (default [] (points_obligatoires q)) Hs ltac:(lia) Hn).
    assert (0 <= inject_Z (Z.of_nat (length (detecter_erreurs rep
                 (default [] (erreurs_a_eviter q)))) * 10)).
    { change 0 with (inject_Z 0). rewrite <- Zle_Qle. lia. }
    lra.
Qed.

Lemma min_100_le x : number_val (min_100 x) <= 100.
Proof.
  unfold min_100. destruct (Qltb x 100) eqn:E; simpl; [|vm_compute; discriminate].
  apply Qltb_spec in E. lra.
Qed.

Lemma max_0_number_bounds n :
  number_val n <= 100 -> 0 <= number_val (max_0_number n) /\ number_val (max_0_number n) <= 100.
Proof.
  intros H. unfold max_0_number. destruct (Qltb 0 (number_val n)) eqn:E; simpl.
  - apply Qltb_spec in E. lra.
  - split; vm_compute; discriminate.
Qed.

Lemma str_or_nil x : str_or x [] = x.
Proof. now destruct x. Qed.

(** What [grade] returns, from what its two loops return. *)
Lemma grade_inv re g answer sc fb :
  grade re g answer = Returns (sc, fb) ->
  exists found missing violated,
    classer_requis re answer (req g) [] [] = Returns (found, missing) /\
    points_violes re answer (forb g) = Returns violated /\
    sc = max_0_number
           (min_100
              (fsub (fadd (py_round
                             (fmul (SequenceMatcher_ratio (str_lower answer)
                                      (str_lower (expected g))) 40) 2)
                          (inject_Z (10 * Z.of_nat (length found))))
                    (inject_Z (10 * Z.of_nat (length violated))))).
Proof.
  unfold grade. change (py "") with (@nil N). rewrite str_or_nil. unfold bind.
  destruct (classer_requis re answer (req g) [] []) as [[found missing]|e];
    [|discriminate].
  destruct (points_violes re answer (forb g)) as [violated|e]; [|discriminate].
  intros H. exists found, missing, violated.
  split; [reflexivity|]. split; [reflexivity|].
  apply (f_equal (fun o => match o with
                           | Returns (x, _) => x
                           | Raises _ => sc
                           end)) in H.
  cbv beta iota in H. now symmetry.
Qed.

Lemma grade_intro re g answer found missing violated :
  classer_requis re answer (req g) [] [] = Returns (found, missing) ->
  points_violes re answer (forb g) = Returns violated ->
  exists fb,
    grade re g answer =
    Returns (max_0_number
               (min_100
                  (fsub (fadd (py_round
                                 (fmul (SequenceMatcher_ratio (str_lower answer)
                                          (str_lower (expected g))) 40) 2)
                              (inject_Z (10 * Z.of_nat (length found))))
                        (inject_Z (10 * Z.of_nat (length violated))))), fb).
Proof.
  intros Hc Hv. unfold grade. change (py "") with (@nil N). rewrite str_or_nil.
  unfold bind. rewrite Hc, Hv. eexists. reflexivity.
Qed.

Lemma grade_bounds re g answer sc fb :
  grade re g answer = Returns (sc, fb) -> 0 <= number_val sc /\ number_val sc <= 100.
Proof.
  intros H. apply grade_inv in H as (found & missing & violated & _ & _ & ->).
  apply max_0_number_bounds, min_100_le.
Qed.

Lemma calculer_similarite_le (self : ReponseAnalyzer) a b :
  SimilarityLaws R (nlp self) -> calculer_similarite self a b <= similarite_max.
Proof.
  intros [Hr Hs]. unfold calculer_similarite.
  assert (M : 1 <= similarite_max) by (vm_compute; discriminate).
  destruct (nlp self) as [m|].
  - destruct (negb (has_vector m a) || negb (has_vector m b)).
    + eapply Qle_trans; [apply Hr | exact M].
    + now apply Hs.
  - eapply Qle_trans; [apply Hr | exact M].
Qed.

(** The base score is below 100.04, whatever the number of points. *)
Lemma score_base_bound s (v : verification) pts :
  s <= similarite_max ->
  (length (presents v) + length (partiels v) <= length pts)%nat ->
  score_base s v pts <= 100 + (1 # 25).
Proof.
  intros Hs Hlen. unfold score_base.
  assert (A : fmul s 100 <= fl (similarite_max * 100)).
  { unfold fmul. apply fl_mono. lra. }
  destruct pts as [|p0 pts'].
  { eapply Qle_trans; [exact A | vm_compute; discriminate]. }
  set (n := length (p0 :: pts')) in *.
  set (F := length (presents v)) in *. set (P := length (partiels v)) in *.
  assert (Hn1 : 1 <= of_nat n).
  { unfold of_nat, n. simpl length. change 1 with (inject_Z 1).
    rewrite <- Zle_Qle. lia. }
  assert (HF : 0 <= of_nat F) by apply of_nat_nonneg.
  assert (HP : 0 <= of_nat P) by apply of_nat_nonneg.
  assert (HFP : of_nat F + of_nat P <= of_nat n).
  { rewrite <- of_nat_plus. now apply of_nat_le. }
  assert (Pe : 0 < 2 ^ (-53)) by apply two_pow_pos.
  assert (P0 : 2 ^ (-1022) <= 1 # 2) by (vm_compute; discriminate).
  assert (B : fmul (fmul s 100) c_0_4 <= fl (fl (similarite_max * 100) * c_0_4)).
  { unfold fmul at 1. apply fl_mono.
    apply Qmult_le_compat_r; [exact A | vm_compute; discriminate]. }
  assert (C1 : fmul (of_nat P) c_0_5 <= of_nat P * (1 # 2) * (1 + 2 ^ (-53))).
  { unfold fmul, c_0_5. destruct P as [|P'].
    - vm_compute. discriminate.
    - assert (1 <= of_nat (S P')).
      { unfold of_nat. change 1 with (inject_Z 1). rewrite <- Zle_Qle. lia. }
      eapply Qle_trans; [apply fl_upper; lra|]. lra. }
  assert (C2 : fadd (of_nat F) (fmul (of_nat P) c_0_5)
               <= of_nat n * ((1 + 2 ^ (-53)) * (1 + 2 ^ (-53)))).
  { unfold fadd.
    apply Qle_trans with (fl (of_nat n * (1 + 2 ^ (-53)))).
    - apply fl_mono.
      apply Qle_trans with ((of_nat F + of_nat P) * (1 + 2 ^ (-53))).
      + nra.
      + apply Qmult_le_compat_r; [exact HFP | lra].
    - eapply Qle_trans; [apply fl_upper; nra|]. lra. }
  assert (C3 : fdiv (fadd (of_nat F) (fmul (of_nat P) c_0_5)) (of_nat n)
               <= fl ((1 + 2 ^ (-53)) * (1 + 2 ^ (-53)))).
  { unfold fdiv. apply fl_mono. apply Qle_shift_div_r; [lra|].
    rewrite Qmult_comm. exact C2. }
  assert (D : fmul (fdiv (fadd (of_nat F) (fmul (of_nat P) c_0_5)) (of_nat n)) 60
              <= fl (fl ((1 + 2 ^ (-53)) * (1 + 2 ^ (-53))) * 60)).
  { unfold fmul at 1. apply fl_mono. lra. }
  unfold fadd at 1.
  apply Qle_trans with (fl (fl (fl (similarite_max * 100) * c_0_4)
                            + fl (fl ((1 + 2 ^ (-53)) * (1 + 2 ^ (-53))) * 60))).
  - apply fl_mono. lra.
  - vm_compute. discriminate.
Qed.

(** The score of the local pipeline is between 0 and 100 when the
    libraries keep to their ranges. *)
Lemma local_score_bounds_laws (self : ReponseAnalyzer) q rep :
  SimilarityLaws R (nlp self) ->
  exists x, score_of (evaluer_reponse_local self q rep) = Some x /\ 0 <= x /\ x <= 100.
Proof.
  intros HL. unfold score_of. rewrite local_score. cbv zeta.
  rewrite py_number_number. eexists. split; [reflexivity|].
  unfold score_final. rewrite round_max_0_val. split.
  - apply Qle_trans with (py_round 0 1); [vm_compute; discriminate|].
    apply py_round_mono, Q.le_max_l.
  - apply Qle_trans with (py_round (fl (100 + (1 # 25))) 1); [|vm_compute; discriminate].
    apply py_round_mono. apply Q.max_lub; [vm_compute; discriminate|].
    unfold fsub. apply fl_mono.
    pose proof (verification_lengths self rep (default [] (points_obligatoires q))) as Hl.
    cbv zeta in Hl.
    assert (Hb := score_base_bound _
                    (verifier_presence_elements self rep (default [] (points_obligatoires q)))
                    (default [] (points_obligatoires q))
                    (calculer_similarite_le self rep (default [] (reponse_attendue q)) HL)
                    ltac:(lia)).
    assert (0 <= inject_Z (Z.of_nat (length (detecter_erreurs rep
                 (default [] (erreurs_a_eviter q)))) * 10)).
    { change 0 with (inject_Z 0). rewrite <- Zle_Qle. lia. }
    lra.
Qed.

End BoundsFacts.

(** ** The ratio of [difflib] *)

Section DifflibFacts.
Variable pop : N -> bool.

Lemma next_row_length x b diag row :
  length row = length b -> length (Difflib.next_row pop x b diag row) = length b.
Proof.
  revert diag row. induction b as [|y b IH]; intros diag [|k row] H; simpl in *;
    try reflexivity; try discriminate.
  f_equal. apply IH. lia.
Qed.

(** A run that ends at row [i] and column [j] is not longer than [i + 1]
    nor than [j + 1]. *)
Lemma next_row_bound i x b j0 diag row :
  (diag <= i)%nat -> (diag <= j0)%nat ->
  (forall t k, row !! t = Some k -> k <= i /\ k <= j0 + t + 1)%nat ->
  forall t k, Difflib.next_row pop x b diag row !! t = Some k ->
              (k <= i + 1 /\ k <= j0 + t + 1)%nat.
Proof.
  revert j0 diag row. induction b as [|y b IH]; intros j0 diag [|k0 row] Hi Hj Hrow t k;
    simpl; try (intros H; discriminate H).
  destruct t as [|t]; simpl.
  - intros [= <-]. destruct (_ && _); lia.
  - intros H. pose proof (Hrow 0%nat k0 eq_refl) as H0.
    replace (j0 + S t + 1)%nat with (S j0 + t + 1)%nat by lia.
    apply (IH (S j0) k0 row); [lia | lia | | exact H].
    intros t' k' Hk'. specialize (Hrow (S t') k' Hk'). lia.
Qed.

Lemma scan_row_within la lb i row j best :
  Difflib.within la lb best -> (i < la)%nat -> (j + length row <= lb)%nat ->
  (forall t k, row !! t = Some k -> k <= i + 1 /\ k <= j + t + 1)%nat ->
  Difflib.within la lb (Difflib.scan_row i j row best).
Proof.
  revert j best. induction row as [|k row IH]; intros j best Hb Hi Hj Hrow; simpl;
    [exact Hb|].
  apply IH; [|exact Hi|simpl in Hj; lia|].
  - destruct (best.2 <? k)%nat; [|exact Hb].
    pose proof (Hrow 0%nat k eq_refl). simpl in Hj.
    unfold Difflib.within. simpl. lia.
  - intros t k' Hk'. specialize (Hrow (S t) k' Hk'). lia.
Qed.

Lemma longest_run_within la b a i row best :
  (i + length a = la)%nat -> length row = length b ->
  (forall t k, row !! t = Some k -> k <= i /\ k <= t + 1)%nat ->
  Difflib.within la (length b) best ->
  Difflib.within la (length b) (Difflib.longest_run pop a i b row best).
Proof.
  revert i row best. induction a as [|x a IH]; intros i row best Hi Hlen Hrow Hb; simpl;
    [exact Hb|].
  simpl in Hi.
  assert (Hnext : forall t k, Difflib.next_row pop x b 0 row !! t = Some k ->
                              (k <= i + 1 /\ k <= t + 1)%nat).
  { intros t k Hk.
    apply (next_row_bound i x b 0 0 row) in Hk; [lia | lia | lia |].
    intros t' k' Hk'. specialize (Hrow t' k' Hk'). lia. }
  apply IH.
  - lia.
  - now apply next_row_length.
  - intros t k Hk. specialize (Hnext t k Hk). lia.
  - apply scan_row_within; [exact Hb | lia | rewrite next_row_length by exact Hlen; lia |].
    intros t k Hk. specialize (Hnext t k Hk). lia.
Qed.

Lemma extend_left_within la lb fuel a b best :
  Difflib.within la lb best -> Difflib.within la lb (Difflib.extend_left fuel a b best).
Proof.
  revert best. induction fuel as [|fuel IH]; intros [[i j] k] H; simpl; [exact H|].
  destruct (_ && _) eqn:E; [|exact H].
  apply IH. apply andb_true_iff in E as [E _]. apply andb_true_iff in E as [E1 E2].
  apply Nat.ltb_lt in E1, E2. unfold Difflib.within in *. simpl in *. lia.
Qed.

Lemma extend_right_within fuel a b best :
  Difflib.within (length a) (length b) best ->
  Difflib.within (length a) (length b) (Difflib.extend_right fuel a b best).
Proof.
  revert best. induction fuel as [|fuel IH]; intros [[i j] k] H; simpl; [exact H|].
  destruct (_ && _) eqn:E; [|exact H].
  apply IH. apply andb_true_iff in E as [E _]. apply andb_true_iff in E as [E1 E2].
  apply Nat.ltb_lt in E1, E2. unfold Difflib.within in *. simpl in *. lia.
Qed.

Lemma lookup_repeat {A} (x : A) n t k : repeat x n !! t = Some k -> k = x.
Proof.
  revert t. induction n as [|n IH]; intros [|t]; simpl; try discriminate.
  - now intros [= <-].
  - apply IH.
Qed.

Lemma find_longest_match_within a b :
  Difflib.within (length a) (length b) (Difflib.find_longest_match pop a b).
Proof.
  unfold Difflib.find_longest_match.
  apply extend_right_within, extend_left_within, longest_run_within.
  - reflexivity.
  - apply repeat_length.
  - intros t k Hk. apply lookup_repeat in Hk as ->. lia.
  - unfold Difflib.within. simpl. lia.
Qed.

Lemma matches_le fuel a b :
  (Difflib.matches fuel pop a b <= length a /\ Difflib.matches fuel pop a b <= length b)%nat.
Proof.
  revert a b. induction fuel as [|fuel IH]; intros a b; simpl; [lia|].
  pose proof (find_longest_match_within a b) as H.
  destruct (Difflib.find_longest_match pop a b) as [[i j] k].
  unfold Difflib.within in H. simpl in H.
  destruct (k =? 0)%nat; [lia|].
  pose proof (IH (take i a) (take j b)) as [L1 L2].
  pose proof (IH (drop (i + k) a) (drop (j + k) b)) as [R1 R2].
  rewrite !length_take in L1, L2. rewrite !length_drop in R1, R2.
  destruct (_ && _); destruct (_ && _); lia.
Qed.

End DifflibFacts.

(** The ratio of [difflib] is between 0 and 1. *)
Lemma difflib_ratio_bounds a b :
  (Z.of_nat (length a + length b) < 2 ^ 53)%Z ->
  (0 <= Difflib.ratio a b)%Q /\ (Difflib.ratio a b <= 1)%Q.
Proof.
  intros H. unfold Difflib.ratio.
  destruct (length a + length b)%nat as [|n] eqn:En; [split; vm_compute; discriminate|].
  set (T := S n) in *.
  pose proof (matches_le (Difflib.popular b) (S (length a)) a b) as [Ma Mb].
  set (M := Difflib.matches _ _ _ _) in *.
  assert (HT : (0 < of_nat T)%Q).
  { unfold of_nat, T. change 0%Q with (inject_Z 0). rewrite <- Zlt_Qlt. lia. }
  assert (H2M : (2 * of_nat M == of_nat (2 * M))%Q).
  { unfold of_nat. rewrite Nat2Z.inj_mul, inject_Z_mult. reflexivity. }
  assert (Hnum : (0 <= fmul 2 (of_nat M))%Q /\ (fmul 2 (of_nat M) <= of_nat T)%Q).
  { unfold fmul. rewrite H2M. split.
    - apply fl_nonneg, of_nat_nonneg.
    - rewrite <- (fl_of_nat T) by exact H. apply fl_mono, of_nat_le. lia. }
  destruct Hnum as [N0 N1]. unfold fdiv. split.
  - apply fl_nonneg. apply Qle_shift_div_l; [exact HT | lra].
  - apply Qle_trans with (fl 1); [|vm_compute; discriminate].
    apply fl_mono. apply Qle_shift_div_r; [exact HT | lra].
Qed.

(** Without spaCy and with the ratio of [difflib], the score of the local
    pipeline is between 0 and 100. *)
Lemma local_score_bounds_difflib (self : ReponseAnalyzer) q rep :
  nlp self = None ->
  (Z.of_nat (length (normaliser_texte (R := latin1) rep)
             + length (normaliser_texte (R := latin1) (default [] (reponse_attendue q))))
   < 2 ^ 53)%Z ->
  (Z.of_nat (length (default [] (points_obligatoires q))) < 2 ^ 53)%Z ->
  exists x, score_of (evaluer_reponse_local (R := latin1) self q rep) = Some x
            /\ (0 <= x)%Q /\ (x <= 100)%Q.
Proof.
  intros Hn Hl Hp. apply local_score_bounds; [|exact Hp].
  unfold calculer_similarite. rewrite Hn.
  apply (difflib_ratio_bounds _ _ Hl).
Qed.

Section DifflibAnySize.
Local Open Scope Q_scope.

(** The ratio of [difflib] is at most 1, whatever the lengths. *)
Lemma difflib_ratio_le_1 a b : Difflib.ratio a b <= 1.
Proof.
  unfold Difflib.ratio.
  destruct (length a + length b)%nat as [|n] eqn:En; [vm_compute; discriminate|].
  set (T := S n) in *.
  pose proof (matches_le (Difflib.popular b) (S (length a)) a b) as [Ma Mb].
  set (M := Difflib.matches _ _ _ _) in *.
  assert (HT : 1 <= of_nat T).
  { unfold of_nat, T. change 1 with (inject_Z 1). rewrite <- Zle_Qle. lia. }
  assert (H2M : 2 * of_nat M <= of_nat T).
  { unfold of_nat. change 2 with (inject_Z 2).
    rewrite <- inject_Z_mult, <- Zle_Qle. lia. }
  assert (Pe : 0 < 2 ^ (-53)) by apply two_pow_pos.
  assert (N1 : fmul 2 (of_nat M) <= of_nat T * (1 + 2 ^ (-53))).
  { unfold fmul. destruct M as [|M'].
    - apply Qle_trans with 0; [vm_compute; discriminate | nra].
    - assert (1 <= of_nat (S M')).
      { unfold of_nat. change 1 with (inject_Z 1). rewrite <- Zle_Qle. lia. }
      assert (P0 : 2 ^ (-1022) <= 2) by (vm_compute; discriminate).
      eapply Qle_trans; [apply fl_upper; lra|]. nra. }
  unfold fdiv. apply Qle_trans with (fl (1 + 2 ^ (-53))); [|vm_compute; discriminate].
  apply fl_mono. apply Qle_shift_div_r; [lra|]. rewrite Qmult_comm. exact N1.
Qed.

Lemma latin1_similarity_laws : SimilarityLaws latin1 None.
Proof.
  split.
  - intros a b. apply difflib_ratio_le_1.
  - intros m a b H. discriminate H.
Qed.

End DifflibAnySize.

(** ** One more violated forbidden point *)

Section MonotoneFacts.
Context {R : Runtime}.
Local Open Scope Q_scope.

Lemma detecter_erreurs_insert rep l1 e l2 :
  element_present (normaliser_texte rep) e = true ->
  length (detecter_erreurs rep (l1 ++ e :: l2))
  = S (length (detecter_erreurs rep (l1 ++ l2))).
Proof.
  intros He. rewrite !detecter_erreurs_filter, !List.filter_app. simpl.
  rewrite He, !length_app. simpl. lia.
Qed.

Lemma score_final_antitone s v (V V' : list pystr) pts :
  (length V <= length V')%nat ->
  number_val (round_number (score_final s v V' pts) 1)
  <= number_val (round_number (score_final s v V pts) 1).
Proof.
  intros H. unfold score_final. rewrite !round_max_0_val.
  apply py_round_mono, Q.max_le_compat_l. unfold fsub. apply fl_mono.
  assert (inject_Z (Z.of_nat (length V) * 10) <= inject_Z (Z.of_nat (length V') * 10)).
  { rewrite <- Zle_Qle. lia. }
  lra.
Qed.

Lemma local_violation_monotone (self : ReponseAnalyzer) q rep e l1 l2 :
  default [] (erreurs_a_eviter q) = l1 ++ l2 ->
  str_contains (normaliser_texte rep) (normaliser_texte e) = true ->
  exists x x',
    score_of (evaluer_reponse_local self q rep) = Some x /\
    score_of (evaluer_reponse_local self (avec_erreurs q (l1 ++ e :: l2)) rep) = Some x' /\
    x' <= x.
Proof.
  intros Hq He. unfold score_of. rewrite !local_score. cbv zeta.
  rewrite !py_number_number. simpl. rewrite Hq.
  eexists _, _. split; [reflexivity|]. split; [reflexivity|].
  apply score_final_antitone. rewrite detecter_erreurs_insert by exact He. lia.
Qed.

Variable re : pystr -> pystr -> re_result.

Lemma points_violes_app text l1 l2 :
  points_violes re text (l1 ++ l2) =
  bind (points_violes re text l1) (fun v1 =>
  bind (points_violes re text l2) (fun v2 => Returns (v1 ++ v2))).
Proof.
  induction l1 as [|p l1 IH]; simpl.
  - now destruct (points_violes re text l2).
  - destruct (_check_point re p text) as [b|e]; simpl; [|reflexivity].
    rewrite IH. destruct (points_violes re text l1) as [v1|e]; simpl; [|reflexivity].
    destruct (points_violes re text l2) as [v2|e]; simpl; [|reflexivity].
    now destruct b.
Qed.

Lemma points_violes_insert text l1 p l2 V :
  _check_point re p text = Returns true ->
  points_violes re text (l1 ++ l2) = Returns V ->
  exists V', points_violes re text (l1 ++ p :: l2) = Returns V'
             /\ length V' = S (length V).
Proof.
  intros Hp. rewrite !points_violes_app. simpl. rewrite Hp. simpl.
  destruct (points_violes re text l1) as [v1|e]; simpl; [|discriminate].
  destruct (points_violes re text l2) as [v2|e]; simpl; [|discriminate].
  intros [= <-]. eexists. split; [reflexivity|].
  rewrite !length_app. simpl. lia.
Qed.

Lemma min_100_mono x y : x <= y -> number_val (min_100 x) <= number_val (min_100 y).
Proof.
  intros H. unfold min_100.
  destruct (Qltb x 100) eqn:Ex; destruct (Qltb y 100) eqn:Ey; simpl;
    rewrite ?Qltb_spec, ?Qltb_false in *; change (inject_Z 100) with 100; lra.
Qed.

Lemma max_0_number_mono n m :
  number_val n <= number_val m ->
  number_val (max_0_number n) <= number_val (max_0_number m).
Proof.
  intros H. unfold max_0_number.
  destruct (Qltb 0 (number_val n)) eqn:En; destruct (Qltb 0 (number_val m)) eqn:Em;
    simpl; rewrite ?Qltb_spec, ?Qltb_false in *; change (inject_Z 0) with 0; lra.
Qed.

Lemma grade_violation_monotone g answer p l1 l2 sc fb :
  forb g = l1 ++ l2 ->
  _check_point re p answer = Returns true ->
  grade re g answer = Returns (sc, fb) ->
  exists sc' fb',
    grade re (avec_forb g (l1 ++ p :: l2)) answer = Returns (sc', fb')
    /\ number_val sc' <= number_val sc.
Proof.
  intros Hg Hp H.
  apply grade_inv in H as (found & missing & V & Hc & HV & ->).
  rewrite Hg in HV.
  destruct (points_violes_insert _ _ _ _ _ Hp HV) as (V' & HV' & Hlen).
  destruct (grade_intro re (avec_forb g (l1 ++ p :: l2)) answer found missing V' Hc HV')
    as [fb' Hfb'].
  eexists _, fb'. split; [exact Hfb'|].
  apply max_0_number_mono, min_100_mono. unfold fsub. apply fl_mono.
  assert (inject_Z (10 * Z.of_nat (length V)) <= inject_Z (10 * Z.of_nat (length V'))).
  { rewrite <- Zle_Qle. lia. }
  change (expected (avec_forb g (l1 ++ p :: l2))) with (expected g).
  lra.
Qed.

End MonotoneFacts.

(** C8: adding to the rubric one forbidden point that the answer violates
    never increases the score, for the local pipeline and for
    [BaselineGrader.grade] alike. *)
Theorem violation_monotone :
  (forall (R : Runtime) (self : ReponseAnalyzer) (q : question_data)
          (rep e : pystr) (l1 l2 : list pystr),
      default [] (erreurs_a_eviter q) = l1 ++ l2 ->
      str_contains (normaliser_texte rep) (normaliser_texte e) = true ->
      exists x x',
        score_of (evaluer_reponse_local self q rep) = Some x /\
        score_of (evaluer_reponse_local self (avec_erreurs q (l1 ++ e :: l2)) rep)
        = Some x' /\
        (x' <= x)%Q) /\
  (forall (R : Runtime) (re : pystr -> pystr -> re_result) (g : BaselineGrader)
          (answer : pystr) (p : pyval) (l1 l2 : list pyval)
          (sc : number) (fb : gmap string pyval),
      forb g = l1 ++ l2 ->
      _check_point re p answer = Returns true ->
      grade re g answer = Returns (sc, fb) ->
      exists sc' fb',
        grade re (avec_forb g (l1 ++ p :: l2)) answer = Returns (sc', fb')
        /\ (number_val sc' <= number_val sc)%Q).
Proof.
  split.
  - intros R self q rep e l1 l2. apply local_violation_monotone.
  - intros R re g answer p l1 l2 sc fb. apply grade_violation_monotone.
Qed.

(** C8, witness: the forbidden point [lumiere] added to the question on
    photosynthesis, and the forbidden point [b] added to the grader of
    [a,b], each violated by the answer. *)
Lemma violation_monotone_witness :
  (exists x x',
      score_of (evaluer_reponse_local (R := latin1) analyzer_local question_photosynthese
                  (py "La photosynthese transforme la lumiere")) = Some x /\
      score_of (evaluer_reponse_local (R := latin1) analyzer_local
                  (avec_erreurs question_photosynthese
                     ([] ++ py "lumiere" :: [py "respiration cellulaire"]))
                  (py "La photosynthese transforme la lumiere")) = Some x' /\
      (x' <= x)%Q) /\
  match grade (R := latin1) re_search_paren grader_simple (py "a b") with
  | Returns (sc, _) =>
    exists sc' fb',
      grade (R := latin1) re_search_paren
        (avec_forb grader_simple ([] ++ PStr (py "b") :: [PStr (py "mitochondrie")]))
        (py "a b") = Returns (sc', fb')
      /\ (number_val sc' <= number_val sc)%Q
  | Raises _ => False
  end.
Proof.
  split.
  - apply (proj1 violation_monotone latin1 analyzer_local question_photosynthese).
    + reflexivity.
    + vm_compute. reflexivity.
  - pose proof (proj2 violation_monotone latin1 re_search_paren grader_simple (py "a b")
                  (PStr (py "b")) [] [PStr (py "mitochondrie")]) as H.
    assert (Hr : returns (grade (R := latin1) re_search_paren grader_simple (py "a b")) = true)
      by (vm_compute; reflexivity).
    destruct (grade (R := latin1) re_search_paren grader_simple (py "a b")) as [[sc fb]|e].
    + apply (H sc fb); [reflexivity | vm_compute; reflexivity | reflexivity].
    + discriminate Hr.
Defined.

(** ** The Gemini path *)

Section GeminiFacts.
Context {R : Runtime}.

Lemma setdefault_union k v (d : gmap string pyval) : setdefault k v d = d ∪ {[k := v]}.
Proof.
  unfold setdefault. apply map_eq. intros i.
  destruct (d !! k) as [x|] eqn:E.
  - rewrite lookup_union. destruct (d !! i) as [y|] eqn:Ei.
    + now destruct ({[k := v]} !! i).
    + rewrite lookup_singleton_ne; [reflexivity | congruence].
  - rewrite insert_union_singleton_r by exact E. reflexivity.
Qed.

(** The eight [setdefault] calls fill the absent keys with the defaults and
    leave the others as they are. *)
Lemma completer_resultats_union d correct :
  py_ge_int (default (PInt 0) (d !! "score")) 60 = Returns correct ->
  completer_resultats d = Returns (d ∪ defauts_gemini correct).
Proof.
  intros H. unfold completer_resultats. rewrite H. unfold bind. f_equal.
  rewrite !setdefault_union, <- !(assoc_L (∪)). reflexivity.
Qed.

Lemma completer_resultats_raises d e :
  py_ge_int (default (PInt 0) (d !! "score")) 60 = Raises e ->
  completer_resultats d = Raises e.
Proof. intros H. unfold completer_resultats. now rewrite H. Qed.

Variable self : ReponseAnalyzer.
Variable generate_content : pystr -> gemini_reply.
Hypothesis configured : gemini_model self = Some generate_content.

Lemma gemini_object q rep text d correct :
  generate_content (_construire_prompt_gemini q rep) = Parsed text (PDict d) ->
  py_ge_int (default (PInt 0) (d !! "score")) 60 = Returns correct ->
  evaluer_reponse_gemini self q rep =
  Returns (d ∪ defauts_gemini correct, _construire_prompt_gemini q rep).
Proof.
  intros Hg Hs. unfold evaluer_reponse_gemini. cbv zeta.
  rewrite configured, Hg, (completer_resultats_union _ _ Hs). reflexivity.
Qed.

Lemma gemini_object_raises q rep text d e :
  generate_content (_construire_prompt_gemini q rep) = Parsed text (PDict d) ->
  py_ge_int (default (PInt 0) (d !! "score")) 60 = Raises e ->
  evaluer_reponse_gemini self q rep = Raises e.
Proof.
  intros Hg Hs. unfold evaluer_reponse_gemini. cbv zeta.
  rewrite configured, Hg, (completer_resultats_raises _ _ Hs). reflexivity.
Qed.

End GeminiFacts.

Section GeminiDefaults.
Context {R : Runtime}.
Variable self : ReponseAnalyzer.
Variable generate_content : pystr -> gemini_reply.
Hypothesis configured : gemini_model self = Some generate_content.

Lemma lookup_completed (d : gmap string pyval) correct k v :
  defauts_gemini correct !! k = Some v ->
  (d ∪ defauts_gemini correct) !! k = Some (default v (d !! k)).
Proof.
  intros H. rewrite lookup_union, H. now destruct (d !! k).
Qed.

Lemma lookup_kept (d : gmap string pyval) correct k v :
  d !! k = Some v -> (d ∪ defauts_gemini correct) !! k = Some v.
Proof. intros H. now apply lookup_union_Some_l. Qed.

(** C6, amended: when the response parses to a JSON object whose score,
    if it has one, is a number, the Gemini path returns the object with
    each absent key filled: ['est_correct'] with [score >= 60] (the score
    being 0 when absent), ['similarite'] with 0, the four lists of points
    with the empty list, ['suggestions'] with the one-element list
    [["Analyse effectuée par Gemini."]] and ['score'] with 0; the keys
    that are present keep their values, whatever they are.  It raises when
    the call does, and when the response is not JSON or not an object. *)
Theorem gemini_defaults (q : question_data) (rep : pystr) :
  let prompt := _construire_prompt_gemini q rep in
  (forall text d correct,
      generate_content prompt = Parsed text (PDict d) ->
      py_ge_int (default (PInt 0) (d !! "score")) 60 = Returns correct ->
      exists r,
        evaluer_reponse_gemini self q rep = Returns (r, prompt) /\
        (forall k v, d !! k = Some v -> r !! k = Some v) /\
        r !! "est_correct" = Some (default (PBool correct) (d !! "est_correct")) /\
        r !! "similarite" = Some (default (PInt 0) (d !! "similarite")) /\
        r !! "elements_presents" = Some (default (PList []) (d !! "elements_presents")) /\
        r !! "elements_partiels" = Some (default (PList []) (d !! "elements_partiels")) /\
        r !! "elements_absents" = Some (default (PList []) (d !! "elements_absents")) /\
        r !! "erreurs_detectees" = Some (default (PList []) (d !! "erreurs_detectees")) /\
        r !! "suggestions" =
          Some (default (PStrs [py "Analyse effectuée par Gemini."]) (d !! "suggestions")) /\
        r !! "score" = Some (default (PInt 0) (d !! "score"))) /\
  (forall e, generate_content prompt = CallRaises e ->
             evaluer_reponse_gemini self q rep = Raises e) /\
  (forall text, generate_content prompt = BadJSON text ->
                evaluer_reponse_gemini self q rep = Raises (erreur_parsing text)) /\
  (forall text v, generate_content prompt = Parsed text v ->
                  (forall d, v <> PDict d) ->
                  evaluer_reponse_gemini self q rep = Raises (erreur_parsing text)).
Proof.
  intros prompt. split; [|split; [|split]].
  - intros text d correct Hg Hs.
    exists (d ∪ defauts_gemini correct).
    split; [exact (gemini_object self generate_content configured q rep text d correct Hg Hs)|].
    split; [intros k v Hk; now apply lookup_kept|].
    repeat split; apply lookup_completed; reflexivity.
  - intros e Hg. unfold evaluer_reponse_gemini. cbv zeta.
    fold prompt. now rewrite configured, Hg.
  - intros text Hg. unfold evaluer_reponse_gemini. cbv zeta.
    fold prompt. now rewrite configured, Hg.
  - intros text v Hg Hv. unfold evaluer_reponse_gemini. cbv zeta.
    fold prompt. rewrite configured, Hg.
    destruct v; try reflexivity. now destruct (Hv d).
Qed.

(** C10: on an object without ['est_correct'], the value returned under
    that key is [score >= 60] for the score of the object, or for 0 when it
    has none; without score and without ['est_correct'] the result has the
    score 0 and is not correct. *)
Theorem gemini_est_correct_derived (q : question_data) (rep : pystr)
    (text : pystr) (d : gmap string pyval) :
  let prompt := _construire_prompt_gemini q rep in
  generate_content prompt = Parsed text (PDict d) ->
  d !! "est_correct" = None ->
  (forall r p, evaluer_reponse_gemini self q rep = Returns (r, p) ->
     exists correct,
       py_ge_int (default (PInt 0) (d !! "score")) 60 = Returns correct /\
       r !! "est_correct" = Some (PBool correct) /\
       r !! "score" = Some (default (PInt 0) (d !! "score"))) /\
  (forall score x, d !! "score" = Some score -> py_number score = Some x ->
     exists r,
       evaluer_reponse_gemini self q rep = Returns (r, prompt) /\
       r !! "est_correct" = Some (PBool (Qle_bool 60 x)) /\
       r !! "score" = Some score) /\
  (d !! "score" = None ->
     exists r,
       evaluer_reponse_gemini self q rep = Returns (r, prompt) /\
       r !! "score" = Some (PInt 0) /\
       r !! "est_correct" = Some (PBool false)).
Proof.
  intros prompt Hg Hc.
  assert (Hret : forall correct,
             py_ge_int (default (PInt 0) (d !! "score")) 60 = Returns correct ->
             exists r,
               evaluer_reponse_gemini self q rep = Returns (r, prompt) /\
               r !! "est_correct" = Some (PBool correct) /\
               r !! "score" = Some (default (PInt 0) (d !! "score"))).
  { intros correct Hs.
    destruct (proj1 (gemini_defaults q rep) text d correct Hg Hs)
      as (r & Hr & _ & Hec & _ & _ & _ & _ & _ & _ & Hsc).
    exists r. rewrite Hc in Hec. now repeat split. }
  split; [|split].
  - intros r p Hr.
    destruct (py_ge_int (default (PInt 0) (d !! "score")) 60) as [correct|e] eqn:Hs.
    + destruct (Hret correct eq_refl) as (r' & Hr' & Hec & Hsc).
      rewrite Hr' in Hr.
      assert (r' = r) as <-.
      { apply (f_equal (fun o => match o with
                                 | Returns (x, _) => x
                                 | Raises _ => r'
                                 end)) in Hr. exact Hr. }
      exists correct. now repeat split.
    + rewrite (gemini_object_raises self generate_content configured q rep text d e Hg Hs)
        in Hr. discriminate Hr.
  - intros score x Hsc Hx. rewrite Hsc in Hret. simpl in Hret.
    apply Hret. destruct score as [| b | z | [y | |] | | |]; simpl in Hx |- *;
      try discriminate; injection Hx as <-; reflexivity.
  - intros Hsc. rewrite Hsc in Hret. simpl in Hret.
    destruct (Hret false eq_refl) as (r & Hr & Hec & Hs0).
    exists r. now repeat split.
Qed.

End GeminiDefaults.

(** C6, witness: Gemini answers with the object [{"score": 85}]. *)
Lemma gemini_defaults_witness :
  gemini_model (analyzer_gemini reply_score_85) = Some (fun _ => reply_score_85) /\
  exists r,
    evaluer_reponse_gemini (R := latin1) (analyzer_gemini reply_score_85)
      question_photosynthese (py "La photosynthese") =
    Returns (r, _construire_prompt_gemini (R := latin1) question_photosynthese
                  (py "La photosynthese")) /\
    r !! "score" = Some (PInt 85) /\
    r !! "est_correct" = Some (PBool true) /\
    r !! "suggestions" = Some (PStrs [py "Analyse effectuée par Gemini."]).
Proof.
  split; [reflexivity|].
  destruct (proj1 (gemini_defaults (R := latin1) (analyzer_gemini reply_score_85)
                     (fun _ => reply_score_85) eq_refl
                     question_photosynthese (py "La photosynthese"))
                  (pyq "{`score`: 85}") (<["score" := PInt 85]> ∅) true eq_refl eq_refl)
    as (r & Hr & _ & Hec & _ & _ & _ & _ & _ & Hsu & Hsc).
  exists r. split; [exact Hr|]. split; [exact Hsc|]. split; [exact Hec | exact Hsu].
Defined.

(** C6, counterexample: on the empty object, ['suggestions'] is filled with
    a list of one sentence, not with the empty list; and the object
    [{"score": "eleve"}], although it parses, makes the Gemini path raise
    a [TypeError]. *)
Lemma gemini_defaults_counterexample :
  match evaluer_reponse_gemini (R := latin1) (analyzer_gemini reply_objet_vide)
          question_photosynthese (py "La photosynthese") with
  | Returns (r, _) =>
    r !! "suggestions" = Some (PList [PStr (py "Analyse effectuée par Gemini.")])
    /\ r !! "suggestions" <> Some (PList [])
  | Raises _ => False
  end /\
  evaluer_reponse_gemini (R := latin1) (analyzer_gemini reply_score_texte)
    question_photosynthese (py "La photosynthese")
  = Raises (Exn "TypeError"
              (py "'>=' not supported between instances of 'str' and 'int'")).
Proof.
  split.
  - vm_compute. split; [reflexivity | discriminate].
  - vm_compute. reflexivity.
Qed.

(** C10, witness: the object [{"score": 85}] has no ['est_correct']. *)
Lemma gemini_est_correct_derived_witness :
  gemini_model (analyzer_gemini reply_score_85) = Some (fun _ => reply_score_85) /\
  exists r,
    evaluer_reponse_gemini (R := latin1) (analyzer_gemini reply_score_85)
      question_photosynthese (py "La photosynthese") =
    Returns (r, _construire_prompt_gemini (R := latin1) question_photosynthese
                  (py "La photosynthese")) /\
    r !! "est_correct" = Some (PBool (Qle_bool 60 (inject_Z 85))) /\
    r !! "score" = Some (PInt 85).
Proof.
  split; [reflexivity|].
  exact (proj1 (proj2 (gemini_est_correct_derived (R := latin1)
                         (analyzer_gemini reply_score_85) (fun _ => reply_score_85) eq_refl
                         question_photosynthese (py "La photosynthese")
                         (pyq "{`score`: 85}") (<["score" := PInt 85]> ∅) eq_refl eq_refl))
               (PInt 85) (inject_Z 85) eq_refl eq_refl).
Defined.

(** ** Bounds of the scores on the three paths *)

(** C4, amended: for every question and reply the score of the local
    pipeline is between 0 and 100, the libraries keeping to their ranges,
    as [difflib] does: without spaCy and with the ratio of [difflib] nothing
    is assumed.  So is the score of [BaselineGrader.grade] whenever it
    returns.  The Gemini path, and the router with it, returns the score of
    the response as it is, whenever this score is a number or a boolean. *)
Theorem score_bounds :
  (forall (R : Runtime) (self : ReponseAnalyzer) (q : question_data) (rep : pystr),
      SimilarityLaws R (nlp self) ->
      exists x, score_of (evaluer_reponse_local self q rep) = Some x
                /\ (0 <= x)%Q /\ (x <= 100)%Q) /\
  (forall (self : ReponseAnalyzer) (q : question_data) (rep : pystr),
      nlp self = None ->
      exists x, score_of (evaluer_reponse_local (R := latin1) self q rep) = Some x
                /\ (0 <= x)%Q /\ (x <= 100)%Q) /\
  (forall (R : Runtime) (re : pystr -> pystr -> re_result) (g : BaselineGrader)
          (answer : pystr) (sc : number) (fb : gmap string pyval),
      grade re g answer = Returns (sc, fb) ->
      (0 <= number_val sc)%Q /\ (number_val sc <= 100)%Q) /\
  (forall (R : Runtime) (self : ReponseAnalyzer) (generate_content : pystr -> gemini_reply)
          (q : question_data) (rep text : pystr) (d : gmap string pyval)
          (score : pyval) (correct : bool),
      gemini_model self = Some generate_content ->
      generate_content (_construire_prompt_gemini q rep) = Parsed text (PDict d) ->
      d !! "score" = Some score ->
      py_ge_int score 60 = Returns correct ->
      exists r,
        evaluer_reponse_gemini self q rep = Returns (r, _construire_prompt_gemini q rep) /\
        evaluer_reponse self q rep = Returns (r, _construire_prompt_gemini q rep) /\
        r !! "score" = Some score).
Proof.
  split; [|split; [|split]].
  - intros R self q rep. apply local_score_bounds_laws.
  - intros self q rep Hn. apply local_score_bounds_laws.
    rewrite Hn. exact latin1_similarity_laws.
  - intros R re g answer sc fb. apply grade_bounds.
  - intros R self generate_content q rep text d score correct Hc Hg Hd Hs.
    assert (Hs' : py_ge_int (default (PInt 0) (d !! "score")) 60 = Returns correct)
      by (rewrite Hd; exact Hs).
    pose proof (gemini_object self generate_content Hc q rep text d correct Hg Hs') as G.
    exists (d ∪ defauts_gemini correct). split; [exact G|]. split.
    + unfold evaluer_reponse. rewrite Hc, G. reflexivity.
    + now apply lookup_kept.
Qed.

(** C4, witness: a reply to the question on photosynthesis, the empty
    reply to the question on the alphabet, the grader of [a,b] on the
    answer [a b], and the response [{"score": 150}]. *)
Lemma score_bounds_witness :
  (SimilarityLaws latin1 (nlp analyzer_local) /\
   exists x, score_of (evaluer_reponse_local (R := latin1) analyzer_local
                         question_photosynthese (py "La photosynthese transforme la lumiere"))
             = Some x /\ (0 <= x)%Q /\ (x <= 100)%Q) /\
  (nlp analyzer_local = None /\
   exists x, score_of (evaluer_reponse_local (R := latin1) analyzer_local
                         question_alphabet (py "")) = Some x
             /\ (0 <= x)%Q /\ (x <= 100)%Q) /\
  match grade (R := latin1) re_search_paren grader_simple (py "a b") with
  | Returns (sc, _) => (0 <= number_val sc)%Q /\ (number_val sc <= 100)%Q
  | Raises _ => False
  end /\
  exists r,
    evaluer_reponse (R := latin1) (analyzer_gemini reply_score_150)
      question_photosynthese (py "La photosynthese")
    = Returns (r, _construire_prompt_gemini (R := latin1) question_photosynthese
                    (py "La photosynthese")) /\
    r !! "score" = Some (PInt 150).
Proof.
  split; [|split; [|split]].
  - split; [exact latin1_similarity_laws|].
    exact (proj1 score_bounds latin1 analyzer_local question_photosynthese _
             latin1_similarity_laws).
  - split; [reflexivity|].
    exact (proj1 (proj2 score_bounds) analyzer_local question_alphabet (py "") eq_refl).
  - pose proof (proj1 (proj2 (proj2 score_bounds)) latin1 re_search_paren grader_simple
                  (py "a b")) as H.
    assert (Hr : returns (grade (R := latin1) re_search_paren grader_simple (py "a b")) = true)
      by (vm_compute; reflexivity).
    destruct (grade (R := latin1) re_search_paren grader_simple (py "a b")) as [[sc fb]|e].
    + exact (H sc fb eq_refl).
    + discriminate Hr.
  - destruct (proj2 (proj2 (proj2 score_bounds)) latin1 (analyzer_gemini reply_score_150)
                (fun _ => reply_score_150) question_photosynthese (py "La photosynthese")
                (pyq "{`score`: 150}") (<["score" := PInt 150]> ∅) (PInt 150) true
                eq_refl eq_refl eq_refl eq_refl) as (r & _ & Hr & Hs).
    exists r. split; [exact Hr | exact Hs].
Defined.

(** C4, counterexample: Gemini answers with the object [{"score": 150}];
    the router returns it with the score 150. *)
Lemma score_bounds_counterexample :
  match evaluer_reponse (R := latin1) (analyzer_gemini reply_score_150)
          question_photosynthese (py "La photosynthese") with
  | Returns (r, _) => score_of r = Some 150%Q /\ ~ (150 <= 100)%Q
  | Raises _ => False
  end.
Proof. vm_compute. split; [reflexivity | intros H; now apply H]. Qed.

(** ** The router *)

Section RouterFacts.
Context {R : Runtime}.
Variable self : ReponseAnalyzer.

Lemma mode_local_in_message (msg : pystr) :
  str_contains (py "Erreur Gemini (" ++ msg ++ py ") - Mode local utilisé.")
               (py "Mode local") = true.
Proof.
  apply str_contains_spec.
  exists (py "Erreur Gemini (" ++ msg ++ py ") - "), (py " utilisé.").
  rewrite <- !app_assoc. reflexivity.
Qed.

(** C3: the router always returns.  When Gemini is not configured, and
    when the Gemini path raises, it returns the result of the local
    pipeline on the same question and reply, with a context that says
    [Mode local]. *)
Theorem router_falls_back (q : question_data) (rep : pystr) :
  (exists r ctx, evaluer_reponse self q rep = Returns (r, ctx)) /\
  (gemini_model self = None ->
     evaluer_reponse self q rep =
     Returns (evaluer_reponse_local self q rep, py "Mode local (Gemini non configuré).")) /\
  (forall e,
     gemini_model self <> None ->
     evaluer_reponse_gemini self q rep = Raises e ->
     evaluer_reponse self q rep =
     Returns (evaluer_reponse_local self q rep,
              py "Erreur Gemini (" ++ exn_msg e ++ py ") - Mode local utilisé.")) /\
  str_contains (py "Mode local (Gemini non configuré).") (py "Mode local") = true /\
  (forall e,
     str_contains (py "Erreur Gemini (" ++ exn_msg e ++ py ") - Mode local utilisé.")
                  (py "Mode local") = true).
Proof.
  unfold evaluer_reponse. split; [|split; [|split; [|split]]].
  - destruct (gemini_model self); [|eauto].
    destruct (evaluer_reponse_gemini self q rep) as [[r ctx]|e]; simpl; eauto.
  - now intros ->.
  - intros e Hm He. destruct (gemini_model self); [|congruence].
    now rewrite He.
  - vm_compute. reflexivity.
  - intros e. apply mode_local_in_message.
Qed.

End RouterFacts.

(** C3, witness: Gemini is configured and its call fails. *)
Lemma router_falls_back_witness :
  gemini_model (analyzer_gemini reply_echec) <> None /\
  evaluer_reponse_gemini (R := latin1) (analyzer_gemini reply_echec)
    question_photosynthese (py "La photosynthese")
  = Raises (Exn "DeadlineExceeded" (py "504 Deadline Exceeded")) /\
  evaluer_reponse (R := latin1) (analyzer_gemini reply_echec)
    question_photosynthese (py "La photosynthese")
  = Returns (evaluer_reponse_local (R := latin1) (analyzer_gemini reply_echec)
               question_photosynthese (py "La photosynthese"),
             py "Erreur Gemini (" ++ py "504 Deadline Exceeded"
             ++ py ") - Mode local utilisé.").
Proof.
  split; [discriminate|]. split; [reflexivity|].
  apply (proj1 (proj2 (proj2 (router_falls_back (R := latin1) (analyzer_gemini reply_echec)
                                question_photosynthese (py "La photosynthese"))))
               (Exn "DeadlineExceeded" (py "504 Deadline Exceeded"))).
  - discriminate.
  - reflexivity.
Defined.

(** ** Matching a point *)

Section MatchingFacts.
Context {R : Runtime}.

Lemma presents_spec (self : ReponseAnalyzer) rep requis p :
  p ∈ presents (verifier_presence_elements self rep requis) <->
  p ∈ requis /\ str_contains (normaliser_texte rep) (normaliser_texte p) = true.
Proof.
  unfold verifier_presence_elements. rewrite fold_classer. simpl.
  rewrite elem_of_filter. reflexivity.
Qed.

Lemma detecter_erreurs_spec rep interdits e :
  e ∈ detecter_erreurs rep interdits <->
  e ∈ interdits /\ str_contains (normaliser_texte rep) (normaliser_texte e) = true.
Proof. rewrite detecter_erreurs_filter, elem_of_filter. reflexivity. Qed.

End MatchingFacts.

(** C9, amended: in [ReponseAnalyzer] a point is judged present (found, for
    a required point; a violation, for a forbidden one) if and only if its
    normalised text occurs in the normalised answer.  In [BaselineGrader] a
    literal point is present if and only if its lowercase text occurs in
    the lowercase answer: punctuation and white space are compared as they
    are. *)
Theorem literal_point_matching :
  (forall (R : Runtime) (self : ReponseAnalyzer) (rep : pystr)
          (requis interdits : list pystr) (p : pystr),
      (p ∈ presents (verifier_presence_elements self rep requis) <->
       p ∈ requis /\
       exists l r, normaliser_texte rep = l ++ normaliser_texte p ++ r) /\
      (p ∈ detecter_erreurs rep interdits <->
       p ∈ interdits /\
       exists l r, normaliser_texte rep = l ++ normaliser_texte p ++ r)) /\
  (forall (R : Runtime) (re : pystr -> pystr -> re_result) (spec text : pystr),
      exists present,
        _check_point re (PStr spec) text = Returns present /\
        (present = true <-> exists l r, str_lower text = l ++ str_lower spec ++ r)).
Proof.
  split.
  - intros R self rep requis interdits p.
    rewrite presents_spec, detecter_erreurs_spec, str_contains_spec. tauto.
  - intros R re spec text. eexists. split; [reflexivity|].
    apply str_contains_spec.
Qed.

(** C9, counterexample: the normalised point [a b] occurs in the normalised
    answer [a b], and [BaselineGrader] does not find the point [a,b] in the
    answer [a b]. *)
Lemma literal_point_matching_counterexample :
  str_contains (normaliser_texte (R := latin1) (py "a b"))
               (normaliser_texte (R := latin1) (py "a,b")) = true /\
  _check_point (R := latin1) re_search_paren (PStr (py "a,b")) (py "a b")
  = Returns false.
Proof. split; vm_compute; reflexivity. Qed.

(** ** Errors of [_check_point] in [grade] *)

Section GraderErrors.
Context {R : Runtime}.
Variable re : pystr -> pystr -> re_result.

Lemma classer_requis_returns text l f m :
  Forall (fun p => returns (_check_point re p text) = true) l ->
  exists f' m', classer_requis re text l f m = Returns (f', m').
Proof.
  intros H. revert f m. induction H as [|p l Hp Hl IH]; intros f m; simpl; [eauto|].
  destruct (_check_point re p text) as [[|]|e]; simpl; [apply IH | apply IH | discriminate].
Qed.

Lemma points_violes_returns text l :
  Forall (fun p => returns (_check_point re p text) = true) l ->
  exists V, points_violes re text l = Returns V.
Proof.
  induction 1 as [|p l Hp Hl [V IH]]; simpl; [eauto|].
  destruct (_check_point re p text) as [b|e]; simpl; [|discriminate].
  rewrite IH. simpl. eauto.
Qed.

Lemma classer_requis_raises text l1 p l2 f m e :
  Forall (fun x => returns (_check_point re x text) = true) l1 ->
  _check_point re p text = Raises e ->
  classer_requis re text (l1 ++ p :: l2) f m = Raises e.
Proof.
  intros H Hp. revert f m. induction H as [|x l1 Hx Hl IH]; intros f m; simpl.
  - now rewrite Hp.
  - destruct (_check_point re x text) as [[|]|e']; simpl; [apply IH | apply IH | discriminate].
Qed.

Lemma points_violes_raises text l1 p l2 e :
  Forall (fun x => returns (_check_point re x text) = true) l1 ->
  _check_point re p text = Raises e ->
  points_violes re text (l1 ++ p :: l2) = Raises e.
Proof.
  intros H Hp. induction H as [|x l1 Hx Hl IH]; simpl.
  - now rewrite Hp.
  - destruct (_check_point re x text) as [b|e']; simpl; [|discriminate].
    now rewrite IH.
Qed.

(** C5, amended: on a point of unknown kind [_check_point] returns [False]
    and does not raise.  On a regex point it returns whether [re.search]
    finds the pattern, and when the pattern does not compile the error of
    [re.search] is raised to the caller of [_check_point], and by [grade]
    to its caller when the point is the first of the rubric to fail. *)
Theorem check_point_malformed (spec : pyval) (text : pystr) :
  (kind_inconnu spec -> _check_point re spec text = Returns false) /\
  (forall d pattern,
      spec = PDict d ->
      py_eq_str (d !! "type") (py "regex") = true ->
      default (PStr (py "")) (d !! "value") = PStr pattern ->
      (re pattern text = ReMatch -> _check_point re spec text = Returns true) /\
      (re pattern text = ReNoMatch -> _check_point re spec text = Returns false) /\
      (forall e, re pattern text = ReError e ->
         _check_point re spec text = Raises e /\
         forall (g : BaselineGrader) (l1 l2 : list pyval),
           Forall (fun x => returns (_check_point re x text) = true) l1 ->
           (req g = l1 ++ spec :: l2 -> grade re g text = Raises e) /\
           (Forall (fun x => returns (_check_point re x text) = true) (req g) ->
            forb g = l1 ++ spec :: l2 -> grade re g text = Raises e))).
Proof.
  split.
  - destruct spec; simpl; try reflexivity; [tauto|].
    intros ->. reflexivity.
  - intros d pattern -> Ht Hv.
    assert (Hc : _check_point re (PDict d) text
                 = match re pattern text with
                   | ReError e => Raises e
                   | ReMatch => Returns true
                   | ReNoMatch => Returns false
                   end).
    { unfold _check_point. now rewrite Ht, Hv. }
    split; [|split].
    + intros Hm. now rewrite Hc, Hm.
    + intros Hm. now rewrite Hc, Hm.
    + intros e He. rewrite He in Hc. split; [exact Hc|].
      intros g l1 l2 Hl. split.
      * intros Hreq. unfold grade. change (py "") with (@nil N). rewrite str_or_nil.
        rewrite Hreq, (classer_requis_raises text l1 (PDict d) l2 [] [] e Hl Hc).
        reflexivity.
      * intros Hreq Hforb. unfold grade. change (py "") with (@nil N). rewrite str_or_nil.
        destruct (classer_requis_returns text (req g) [] [] Hreq) as (f' & m' & ->).
        unfold bind.
        rewrite Hforb, (points_violes_raises text l1 (PDict d) l2 e Hl Hc). reflexivity.
Qed.

End GraderErrors.

(** C5, witness: a number is a point of unknown kind; the pattern [bc] is
    found in [aBCd] and [z] is not; [(] is a pattern that does not compile,
    among the required points of one grader and the forbidden points of
    another. *)
Lemma check_point_malformed_witness :
  (kind_inconnu (PInt 3) /\
   _check_point (R := latin1) re_search_litteral (PInt 3) (py "abc") = Returns false) /\
  (re_search_litteral (py "bc") (py "aBCd") = ReMatch /\
   _check_point (R := latin1) re_search_litteral (regex_spec (py "bc")) (py "aBCd")
   = Returns true) /\
  (re_search_litteral (py "z") (py "aBCd") = ReNoMatch /\
   _check_point (R := latin1) re_search_litteral (regex_spec (py "z")) (py "aBCd")
   = Returns false) /\
  (re_search_litteral (py "(") (py "a b") = ReError re_error_paren /\
   _check_point (R := latin1) re_search_litteral (regex_spec (py "(")) (py "a b")
   = Raises re_error_paren /\
   grade (R := latin1) re_search_litteral grader_regex_invalide (py "a b")
   = Raises re_error_paren /\
   grade (R := latin1) re_search_litteral grader_interdit_invalide (py "a b")
   = Raises re_error_paren).
Proof.
  assert (Hd : forall p : pystr,
             regex_spec p = PDict (<["type" := PStr (py "regex")]> (<["value" := PStr p]> ∅)))
    by reflexivity.
  split; [|split; [|split]].
  - split; [exact I|].
    exact (proj1 (check_point_malformed (R := latin1) re_search_litteral (PInt 3) (py "abc")) I).
  - split; [vm_compute; reflexivity|].
    apply (proj2 (check_point_malformed (R := latin1) re_search_litteral
                    (regex_spec (py "bc")) (py "aBCd")) _ (py "bc") (Hd _));
      vm_compute; reflexivity.
  - split; [vm_compute; reflexivity|].
    apply (proj2 (check_point_malformed (R := latin1) re_search_litteral
                    (regex_spec (py "z")) (py "aBCd")) _ (py "z") (Hd _));
      vm_compute; reflexivity.
  - assert (He : re_search_litteral (py "(") (py "a b") = ReError re_error_paren)
      by (vm_compute; reflexivity).
    destruct (proj2 (proj2 (proj2 (check_point_malformed (R := latin1) re_search_litteral
                                     (regex_spec (py "(")) (py "a b"))
                                  _ (py "(") (Hd _) eq_refl eq_refl))
                    re_error_paren He) as [Hc Hg].
    split; [exact He|]. split; [exact Hc|]. split.
    + apply (proj1 (Hg grader_regex_invalide [PStr (py "a")] []
                       ltac:(repeat constructor))).
      reflexivity.
    + apply (proj2 (Hg grader_interdit_invalide [] [] ltac:(constructor))).
      * repeat constructor.
      * reflexivity.
Defined.

(** C5, counterexample: the regex point whose pattern is [(] makes
    [_check_point] raise. *)
Lemma check_point_malformed_counterexample :
  _check_point (R := latin1) re_search_paren (regex_spec (py "(")) (py "abc")
  = Raises re_error_paren
  /\ _check_point (R := latin1) re_search_paren (regex_spec (py "(")) (py "abc")
     <> Returns false.
Proof. split; [vm_compute; reflexivity | vm_compute; discriminate]. Qed.

(** * Further properties *)

(** ** More on the normaliser *)

Section NormaliserShape.
Context {R : Runtime}.
Hypothesis laws : RuntimeLaws R.

(** X1: a normalised text is made of words joined by single spaces: the
    words are not empty and hold word characters only, none of which is
    white space. *)
Theorem normaliser_texte_shape (x : pystr) :
  exists ws : list pystr,
    normaliser_texte x = str_join [32%N] ws /\
    Forall (fun w => w <> [] /\
                     Forall (fun c => is_word c = true /\ str_isspace c = false) w) ws.
Proof.
  exists (str_split (sub_ponctuation (str_lower x))). split; [reflexivity|].
  eapply Forall_impl; [apply (normaliser_words laws x)|].
  intros w (Hn & Hs & Hc). split; [exact Hn|].
  rewrite Forall_forall. intros c Hin.
  unfold no_space in Hs. rewrite Forall_forall in Hs. specialize (Hs c Hin).
  destruct (Hc c Hin) as [_ K]. rewrite Hs, orb_false_r in K. now split.
Qed.

Lemma str_lower_idempotent (x : pystr) : str_lower (str_lower x) = str_lower x.
Proof.
  apply (lower_of_settled R laws). intros c Hc.
  eapply (lower_produces_settled R laws); exact Hc.
Qed.

(** The words of a normal form are the words that were joined. *)
Lemma normaliser_texte_split (x : pystr) :
  str_split (normaliser_texte x) = str_split (sub_ponctuation (str_lower x)).
Proof.
  unfold normaliser_texte. change (py " ") with [32%N].
  apply str_split_join; [apply (isspace_space R laws)|].
  eapply Forall_impl; [apply (normaliser_words laws x)|].
  intros w (Hn & Hs & _). now split.
Qed.

(** X2: the normaliser does not see the case: a text and its lowercase
    have the same normal form. *)
Theorem normaliser_texte_lower (x : pystr) :
  normaliser_texte (str_lower x) = normaliser_texte x.
Proof. unfold normaliser_texte. now rewrite str_lower_idempotent. Qed.

End NormaliserShape.

Lemma normaliser_texte_shape_witness :
  RuntimeLaws latin1 /\
  exists ws : list pystr,
    normaliser_texte (R := latin1) (py "  Energie,  CHIMIQUE ! ") = str_join [32%N] ws /\
    Forall (fun w => w <> [] /\
                     Forall (fun c => is_word (R := latin1) c = true
                                      /\ str_isspace (Runtime := latin1) c = false) w) ws.
Proof.
  split; [exact latin1_laws|].
  apply (normaliser_texte_shape latin1_laws).
Defined.

Lemma normaliser_texte_lower_witness :
  RuntimeLaws latin1 /\
  normaliser_texte (R := latin1) (str_lower (Runtime := latin1) (py "Energie CHIMIQUE"))
  = normaliser_texte (R := latin1) (py "Energie CHIMIQUE").
Proof.
  split; [exact latin1_laws|].
  apply (normaliser_texte_lower latin1_laws).
Defined.

(** ** Keywords and similarity *)

Section KeywordFacts.
Context {R : Runtime}.
Hypothesis laws : RuntimeLaws R.
Variable self : ReponseAnalyzer.
Hypothesis sans_spacy : nlp self = None.

(** X3: without spaCy, a keyword of a text is a word of its normal form
    that has more than three code points, all of them word characters, and
    that is not a stop word. *)
Theorem extraire_mots_cles_shape (texte mot : pystr) :
  mot ∈ extraire_mots_cles self texte ->
  mot ∈ str_split (normaliser_texte texte) /\
  (3 < length mot)%nat /\
  (mot ∉ stop_words) /\
  Forall (fun c => is_word c = true) mot.
Proof.
  unfold extraire_mots_cles. rewrite sans_spacy.
  rewrite elem_of_list_to_set, list_elem_of_filter.
  intros [[Hlen Hstop] Hin]. split; [exact Hin|]. split; [exact Hlen|].
  split; [exact Hstop|].
  rewrite (normaliser_texte_split laws) in Hin.
  pose proof (normaliser_words laws texte) as Hws. rewrite Forall_forall in Hws.
  destruct (Hws mot Hin) as (_ & Hs & Hc).
  rewrite Forall_forall. intros c Hcin.
  unfold no_space in Hs. rewrite Forall_forall in Hs. specialize (Hs c Hcin).
  destruct (Hc c Hcin) as [_ K]. now rewrite Hs, orb_false_r in K.
Qed.

End KeywordFacts.

(** ** The local pipeline and the normal form of the reply *)

Section ReplyNormalForm.
Context {R : Runtime}.
Variable self : ReponseAnalyzer.
Hypothesis sans_spacy : nlp self = None.

Lemma extraire_mots_cles_normal (t t' : pystr) :
  normaliser_texte t = normaliser_texte t' ->
  extraire_mots_cles self t = extraire_mots_cles self t'.
Proof. intros H. unfold extraire_mots_cles. now rewrite sans_spacy, H. Qed.

(** X4: without spaCy, the local pipeline sees the reply through its normal
    form only: two replies with the same normal form (the same words, up
    to case, punctuation and spacing) get the same result, score, lists and
    suggestions included. *)
Theorem evaluer_reponse_local_normal (q : question_data) (rep rep' : pystr) :
  normaliser_texte rep = normaliser_texte rep' ->
  evaluer_reponse_local self q rep = evaluer_reponse_local self q rep'.
Proof.
  intros H.
  assert (Hs : forall att, calculer_similarite self rep att = calculer_similarite self rep' att).
  { intros att. unfold calculer_similarite. now rewrite sans_spacy, H. }
  assert (Hv : forall l, verifier_presence_elements self rep l
                         = verifier_presence_elements self rep' l).
  { intros l. unfold verifier_presence_elements.
    now rewrite H, (extraire_mots_cles_normal rep rep' H). }
  assert (Hd : forall l, detecter_erreurs rep l = detecter_erreurs rep' l).
  { intros l. unfold detecter_erreurs. now rewrite H. }
  unfold evaluer_reponse_local. cbv zeta. now rewrite Hs, Hv, Hd.
Qed.

End ReplyNormalForm.

Lemma evaluer_reponse_local_normal_witness :
  nlp analyzer_local = None /\
  normaliser_texte (R := latin1) (py "La  PHOTO-synthese !")
  = normaliser_texte (R := latin1) (py "la photo synthese") /\
  evaluer_reponse_local (R := latin1) analyzer_local question_photosynthese
    (py "La  PHOTO-synthese !")
  = evaluer_reponse_local (R := latin1) analyzer_local question_photosynthese
      (py "la photo synthese").
Proof.
  split; [reflexivity|].
  assert (H : normaliser_texte (R := latin1) (py "La  PHOTO-synthese !")
              = normaliser_texte (R := latin1) (py "la photo synthese"))
    by (vm_compute; reflexivity).
  split; [exact H|].
  exact (evaluer_reponse_local_normal (R := latin1) analyzer_local eq_refl
           question_photosynthese _ _ H).
Defined.

(** ** More on the required and forbidden points *)

Section PointsOrder.
Context {R : Runtime}.

(** X5: the found, partial and missing points are listed in the order of
    the rubric, and so are the violations. *)
Theorem verification_order (self : ReponseAnalyzer) (rep : pystr)
    (requis interdits : list pystr) :
  let v := verifier_presence_elements self rep requis in
  sublist (presents v) requis /\
  sublist (partiels v) requis /\
  sublist (absents v) requis /\
  sublist (detecter_erreurs rep interdits) interdits.
Proof.
  cbv zeta. unfold verifier_presence_elements. rewrite fold_classer. simpl.
  rewrite detecter_erreurs_filter. repeat split; apply filter_sublist.
Qed.

(** X6: spaCy and Gemini have no part in which required points are found:
    two analysers find the same points in a reply, and split the others
    between partial and missing. *)
Theorem presents_independent (self self' : ReponseAnalyzer) (rep : pystr)
    (requis : list pystr) :
  let v := verifier_presence_elements self rep requis in
  let v' := verifier_presence_elements self' rep requis in
  presents v = presents v' /\
  partiels v ++ absents v ≡ₚ partiels v' ++ absents v'.
Proof.
  cbv zeta. unfold verifier_presence_elements. rewrite !fold_classer. simpl.
  split; [reflexivity|].
  set (f := element_present (normaliser_texte rep)).
  pose proof (filter_three_way f
                (element_partiel self (extraire_mots_cles self rep)) requis) as H1.
  pose proof (filter_three_way f
                (element_partiel self' (extraire_mots_cles self' rep)) requis) as H2.
  apply (Permutation_app_inv_l (List.filter f requis)).
  etransitivity; [exact H1 | symmetry; exact H2].
Qed.

(** X7: a point that the rubric both requires and forbids is found if and
    only if it is a violation. *)
Theorem required_and_forbidden (self : ReponseAnalyzer) (rep : pystr)
    (requis interdits : list pystr) (p : pystr) :
  p ∈ requis -> p ∈ interdits ->
  (p ∈ presents (verifier_presence_elements self rep requis)
   <-> p ∈ detecter_erreurs rep interdits).
Proof.
  intros Hr Hi. rewrite presents_spec, detecter_erreurs_spec. tauto.
Qed.

Variable self : ReponseAnalyzer.
Hypothesis sans_spacy : nlp self = None.

Lemma short_words_no_keyword (p : pystr) :
  Forall (fun w => (length w <= 3)%nat) (str_split (normaliser_texte p)) ->
  extraire_mots_cles self p = ∅.
Proof.
  intros H. unfold extraire_mots_cles. rewrite sans_spacy.
  apply set_eq. intros w. rewrite elem_of_list_to_set, list_elem_of_filter.
  split; [|intros Hw; now apply not_elem_of_empty in Hw].
  intros [[Hlen _] Hin]. rewrite Forall_forall in H. specialize (H w Hin). lia.
Qed.

(** X8: without spaCy, a required point whose words all have three code
    points or fewer is never partly found: it is found or missing. *)
Theorem short_point_never_partial (rep : pystr) (requis : list pystr) (p : pystr) :
  Forall (fun w => (length w <= 3)%nat) (str_split (normaliser_texte p)) ->
  ~ p ∈ partiels (verifier_presence_elements self rep requis).
Proof.
  intros H Hin. unfold verifier_presence_elements in Hin.
  rewrite fold_classer in Hin. simpl in Hin.
  apply elem_of_filter in Hin as [_ Hp].
  apply andb_true_iff in Hp as [_ Hp]. unfold element_partiel in Hp.
  rewrite (short_words_no_keyword p H) in Hp.
  apply andb_true_iff in Hp as [Hp _]. apply bool_decide_eq_true in Hp. now apply Hp.
Qed.

End PointsOrder.

Lemma required_and_forbidden_witness :
  py "lumiere" ∈ [py "lumiere"; py "chlorophylle"] /\
  py "lumiere" ∈ [py "lumiere"] /\
  (py "lumiere" ∈ presents (verifier_presence_elements (R := latin1) analyzer_local
                              (py "La lumiere du soleil") [py "lumiere"; py "chlorophylle"])
   <-> py "lumiere" ∈ detecter_erreurs (R := latin1) (py "La lumiere du soleil")
                        [py "lumiere"]).
Proof.
  assert (H1 : py "lumiere" ∈ [py "lumiere"; py "chlorophylle"]) by (vm_compute; constructor).
  assert (H2 : py "lumiere" ∈ [py "lumiere"]) by (vm_compute; constructor).
  split; [exact H1|]. split; [exact H2|].
  exact (required_and_forbidden (R := latin1) analyzer_local _ _ _ _ H1 H2).
Defined.

Lemma short_point_never_partial_witness :
  nlp analyzer_local = None /\
  Forall (fun w => (length w <= 3)%nat)
         (str_split (R := latin1) (normaliser_texte (R := latin1) (py "ADN et ARN"))) /\
  ~ py "ADN et ARN" ∈ partiels (verifier_presence_elements (R := latin1) analyzer_local
                                  (py "Les acides : ADN, ARN") [py "ADN et ARN"]).
Proof.
  split; [reflexivity|].
  assert (H : Forall (fun w => (length w <= 3)%nat)
                (str_split (R := latin1) (normaliser_texte (R := latin1) (py "ADN et ARN")))).
  { vm_compute. repeat constructor. }
  split; [exact H|].
  exact (short_point_never_partial (R := latin1) analyzer_local eq_refl _ _ _ H).
Defined.

Lemma extraire_mots_cles_shape_witness :
  RuntimeLaws latin1 /\
  nlp analyzer_local = None /\
  py "photosynthese" ∈ extraire_mots_cles (R := latin1) analyzer_local
                         (py "La Photosynthese, c'est la vie !") /\
  (3 < length (py "photosynthese"))%nat.
Proof.
  assert (H : py "photosynthese" ∈ extraire_mots_cles (R := latin1) analyzer_local
                                     (py "La Photosynthese, c'est la vie !")).
  { unfold extraire_mots_cles. cbn [nlp analyzer_local].
    apply elem_of_list_to_set, list_elem_of_filter. split; [split|].
    - vm_compute. lia.
    - apply (bool_decide_unpack _); vm_compute; exact I.
    - vm_compute. repeat constructor. }
  split; [exact latin1_laws|]. split; [reflexivity|]. split; [exact H|].
  exact (proj1 (proj2 (extraire_mots_cles_shape latin1_laws analyzer_local eq_refl _ _ H))).
Defined.

(** ** Suggestions *)

Section SuggestionFacts.
Context {R : Runtime}.

(** X9: there is always a suggestion and never more than three; the list is
    the single sentence of congratulation exactly when nothing is missing,
    nothing is partial and nothing is violated. *)
Theorem generer_suggestions_shape (v : verification) (erreurs : list pystr) :
  let suggestions := _generer_suggestions v erreurs in
  (1 <= length suggestions <= 3)%nat /\
  (suggestions = [py "✅ Excellente réponse ! Tous les points importants sont couverts."]
   <-> absents v = [] /\ partiels v = [] /\ erreurs = []).
Proof.
  cbv zeta. unfold _generer_suggestions.
  destruct (absents v) as [|a la]; destruct (partiels v) as [|p lp];
    destruct erreurs as [|e le]; cbn [app length]; (split; [lia|]);
    (split; [intros H; try discriminate H; repeat split; try reflexivity
            | intros (H1 & H2 & H3); try discriminate; try reflexivity]).
  all: exfalso; apply (f_equal (fun l => match l with
                                         | (x :: _) :: _ => Some x
                                         | _ => None
                                         end)) in H; vm_compute in H; discriminate H.
Qed.

End SuggestionFacts.

(** ** The verdict and the score of the local pipeline *)

Section VerdictFacts.
Context {R : Runtime}.
Variable self : ReponseAnalyzer.
Local Open Scope Q_scope.

(** The score returned is at least 60 when the score before rounding is. *)
Lemma local_score_ge_60 (q : question_data) (rep : pystr) :
  let pts := default [] (points_obligatoires q) in
  let s := calculer_similarite self rep (default [] (reponse_attendue q)) in
  let v := verifier_presence_elements self rep pts in
  let V := detecter_erreurs rep (default [] (erreurs_a_eviter q)) in
  60 <= number_val (score_final s v V pts) ->
  exists x, score_of (evaluer_reponse_local self q rep) = Some x /\ 60 <= x.
Proof.
  cbv zeta. intros Hsc.
  unfold score_of. rewrite local_score. cbv zeta. rewrite py_number_number.
  eexists. split; [reflexivity|].
  unfold score_final in *. rewrite round_max_0_val. rewrite max_0_val in Hsc.
  apply Qle_trans with (py_round 60 1); [vm_compute; discriminate|].
  now apply py_round_mono.
Qed.

(** X10: when the local pipeline says that a reply is correct, the score it
    returns is at least 60, no required point is missing and no forbidden
    point is violated. *)
Theorem est_correct_sound (q : question_data) (rep : pystr) :
  let r := evaluer_reponse_local self q rep in
  r !! "est_correct" = Some (PBool true) ->
  (exists x, score_of r = Some x /\ 60 <= x) /\
  r !! "elements_absents" = Some (PList []) /\
  r !! "erreurs_detectees" = Some (PList []).
Proof.
  cbv zeta. rewrite local_est_correct. cbv zeta. intros [= H].
  unfold est_correct in H. apply andb_true_iff in H as [H Habs].
  apply andb_true_iff in H as [Hsc HV]. apply Qle_bool_iff in Hsc.
  split; [|split].
  - now apply local_score_ge_60.
  - rewrite local_elements_absents.
    destruct (absents _); [reflexivity | discriminate Habs].
  - rewrite local_erreurs_detectees.
    destruct (detecter_erreurs _ _); [reflexivity | discriminate HV].
Qed.

(** The base score when every required point is found. *)
Lemma score_base_all_found s (v : verification) pts :
  0 <= s -> pts <> [] ->
  length (presents v) = length pts -> partiels v = [] ->
  (Z.of_nat (length pts) < 2 ^ 53)%Z ->
  60 <= score_base s v pts.
Proof.
  intros Hs Hne HF HP Hn. unfold score_base.
  destruct pts as [|p0 pts']; [congruence|].
  rewrite HF, HP. set (n := length (p0 :: pts')) in *.
  assert (Hn0 : 0 < of_nat n).
  { unfold of_nat, n. simpl length. change 0 with (inject_Z 0).
    rewrite <- Zlt_Qlt. lia. }
  change (length (@nil pystr)) with 0%nat.
  assert (E0 : fmul (of_nat 0) c_0_5 = 0) by (vm_compute; reflexivity).
  rewrite E0.
  assert (E1 : fadd (of_nat n) 0 == of_nat n).
  { unfold fadd. rewrite <- (fl_of_nat n) at 2 by exact Hn.
    apply fl_Proper. ring. }
  assert (E2 : fdiv (fadd (of_nat n) 0) (of_nat n) == 1).
  { unfold fdiv. change 1 with (fl 1). apply fl_Proper. rewrite E1.
    field. intros C. rewrite C in Hn0. now apply Qlt_irrefl in Hn0. }
  assert (E3 : fmul (fdiv (fadd (of_nat n) 0) (of_nat n)) 60 == 60).
  { unfold fmul. change 60 with (fl 60) at 2. apply fl_Proper. rewrite E2. ring. }
  assert (A : 0 <= fmul (fmul s 100) c_0_4).
  { unfold fmul. apply fl_nonneg. apply Qmult_le_0_compat.
    - apply fl_nonneg. lra.
    - vm_compute. discriminate. }
  unfold fadd at 1. change 60 with (fl 60) at 1. apply fl_mono. rewrite E3. lra.
Qed.

(** X11: when the rubric has required points, all of them are found, none
    is violated and the similarity is not negative, the reply is correct
    and its score is at least 60, however little it resembles the expected
    answer. *)
Theorem all_found_is_correct (q : question_data) (rep : pystr) :
  let pts := default [] (points_obligatoires q) in
  let v := verifier_presence_elements self rep pts in
  let r := evaluer_reponse_local self q rep in
  pts <> [] ->
  (Z.of_nat (length pts) < 2 ^ 53)%Z ->
  0 <= calculer_similarite self rep (default [] (reponse_attendue q)) ->
  partiels v = [] -> absents v = [] ->
  detecter_erreurs rep (default [] (erreurs_a_eviter q)) = [] ->
  r !! "est_correct" = Some (PBool true) /\
  exists x, score_of r = Some x /\ 60 <= x.
Proof.
  intros pts v r Hne Hn Hs HP HM HV.
  assert (HF : length (presents v) = length pts).
  { pose proof (verification_lengths self rep pts) as Hl. cbv zeta in Hl.
    fold v in Hl. rewrite HP, HM in Hl. simpl in Hl. lia. }
  pose proof (score_base_all_found _ v pts Hs Hne HF HP Hn) as Hb.
  assert (Hge : 60 <= number_val
                  (score_final (calculer_similarite self rep (default [] (reponse_attendue q)))
                     v (detecter_erreurs rep (default [] (erreurs_a_eviter q))) pts)).
  { rewrite HV. unfold score_final. rewrite max_0_val.
    apply Qle_trans with (fsub (score_base
        (calculer_similarite self rep (default [] (reponse_attendue q))) v pts)
        (inject_Z (Z.of_nat (length (@nil pystr)) * 10))); [|apply Q.le_max_r].
    unfold fsub. change 60 with (fl 60) at 1. apply fl_mono.
    change (inject_Z (Z.of_nat (length (@nil pystr)) * 10)) with 0. lra. }
  split; [|exact (local_score_ge_60 q rep Hge)].
  unfold r. rewrite local_est_correct. cbv zeta. fold pts. fold v.
  do 2 f_equal. unfold est_correct.
  apply Qle_bool_iff in Hge. rewrite Hge, HV, HM. reflexivity.
Qed.

(** X12: with ten violations or more the score is 0, whatever the reply
    is worth otherwise, and the reply is not correct. *)
Theorem ten_violations_zero (q : question_data) (rep : pystr) :
  let pts := default [] (points_obligatoires q) in
  let r := evaluer_reponse_local self q rep in
  calculer_similarite self rep (default [] (reponse_attendue q)) <= 1 ->
  (Z.of_nat (length pts) < 2 ^ 53)%Z ->
  (10 <= length (detecter_erreurs rep (default [] (erreurs_a_eviter q))))%nat ->
  r !! "score" = Some (PInt 0) /\ r !! "est_correct" = Some (PBool false).
Proof.
  intros pts r Hs Hn HV.
  set (v := verifier_presence_elements self rep pts).
  set (V := detecter_erreurs rep (default [] (erreurs_a_eviter q))) in *.
  pose proof (verification_lengths self rep pts) as Hl. cbv zeta in Hl. fold v in Hl.
  assert (Hb := score_base_le_100 _ v pts Hs ltac:(lia) Hn).
  assert (Hsf : score_final (calculer_similarite self rep (default [] (reponse_attendue q)))
                  v V pts = Int 0).
  { unfold score_final, max_0.
    assert (Hle : fsub (score_base (calculer_similarite self rep
                          (default [] (reponse_attendue q))) v pts)
                       (inject_Z (Z.of_nat (length V) * 10)) <= 0).
    { unfold fsub. apply Qle_trans with (fl 0); [|vm_compute; discriminate].
      apply fl_mono.
      assert (100 <= inject_Z (Z.of_nat (length V) * 10)).
      { change 100 with (inject_Z 100). rewrite <- Zle_Qle. lia. }
      lra. }
    apply Qltb_false in Hle. now rewrite Hle. }
  split.
  - unfold r. rewrite local_score. cbv zeta. fold pts. fold v. fold V.
    now rewrite Hsf.
  - unfold r. rewrite local_est_correct. cbv zeta. fold pts. fold v. fold V.
    now rewrite Hsf.
Qed.

(** X13: the similarity the result shows is a percentage: between 0 and
    100 when the ratio is between 0 and 1. *)
Theorem local_similarite_bounds (q : question_data) (rep : pystr) :
  let s := calculer_similarite self rep (default [] (reponse_attendue q)) in
  0 <= s -> s <= 1 ->
  exists x, evaluer_reponse_local self q rep !! "similarite" = Some (PFloat (FFin x))
            /\ 0 <= x /\ x <= 100.
Proof.
  intros s H0 H1. eexists. split; [lookup_local|].
  apply py_round_1_bounds.
  - unfold fmul. apply fl_nonneg. fold s. lra.
  - unfold fmul. apply Qle_trans with (fl 100); [|vm_compute; discriminate].
    apply fl_mono. fold s. lra.
Qed.

End VerdictFacts.

(** ** The keys of a result and the shape of the prompt *)

Section KeysFacts.
Context {R : Runtime}.
Variable self : ReponseAnalyzer.

Lemma dom_defauts_gemini correct : dom (defauts_gemini correct) = cles_resultats.
Proof.
  unfold defauts_gemini, cles_resultats.
  rewrite !dom_insert_L, dom_empty_L. set_solver.
Qed.

Lemma dom_local q rep : dom (evaluer_reponse_local self q rep) = cles_resultats.
Proof.
  unfold evaluer_reponse_local, cles_resultats. cbv zeta.
  rewrite !dom_insert_L, dom_empty_L. set_solver.
Qed.

Lemma gemini_returns_inv q rep r p :
  evaluer_reponse_gemini self q rep = Returns (r, p) ->
  exists d correct, r = d ∪ defauts_gemini correct /\ p = _construire_prompt_gemini q rep.
Proof.
  unfold evaluer_reponse_gemini. cbv zeta.
  destruct (gemini_model self) as [g|]; [|discriminate].
  destruct (g _) as [e|text|text v]; try discriminate.
  destruct v; try discriminate.
  destruct (py_ge_int (default (PInt 0) (d !! "score")) 60) as [correct|e] eqn:Hs.
  - rewrite (completer_resultats_union d correct Hs). simpl. intros [= <- <-]. eauto.
  - rewrite (completer_resultats_raises d e Hs). discriminate.
Qed.

(** X14: whichever path produced it, the result of the router holds the
    eight keys that the display reads; the result of the local pipeline
    holds these and no other. *)
Theorem router_result_keys (q : question_data) (rep : pystr)
    (r : gmap string pyval) (ctx : pystr) :
  evaluer_reponse self q rep = Returns (r, ctx) ->
  (forall k, k ∈ cles_resultats -> is_Some (r !! k)) /\
  dom (evaluer_reponse_local self q rep) = cles_resultats.
Proof.
  intros H. split; [|apply dom_local].
  intros k Hk. apply elem_of_dom.
  unfold evaluer_reponse in H.
  destruct (gemini_model self) as [g|] eqn:Hg.
  - destruct (evaluer_reponse_gemini self q rep) as [[r' p]|e] eqn:He; simpl in H.
    + injection H as <- <-.
      apply gemini_returns_inv in He as (d & correct & -> & _).
      rewrite dom_union_L, dom_defauts_gemini. apply elem_of_union_r, Hk.
    + injection H as <- _. now rewrite dom_local.
  - injection H as <- _. now rewrite dom_local.
Qed.

(** X15: the prompt sent to Gemini is made of words joined by single
    spaces: no line break, no run of white space, none at either end,
    whatever the question and the reply hold. *)
Theorem prompt_shape (q : question_data) (rep : pystr) :
  exists ws : list pystr,
    _construire_prompt_gemini q rep = str_join [32%N] ws /\
    Forall (fun w => w <> [] /\ Forall (fun c => str_isspace c = false) w) ws.
Proof.
  unfold _construire_prompt_gemini. cbv zeta. eexists. split; [reflexivity|].
  eapply Forall_impl; [apply str_split_words|].
  intros w (Hn & Hs & _). now split.
Qed.

End KeysFacts.

(** ** More on [BaselineGrader] *)

Section GraderFacts.
Context {R : Runtime}.
Variable re : pystr -> pystr -> re_result.
Local Open Scope Q_scope.

Lemma classer_requis_spec text l f m f' m' :
  classer_requis re text l f m = Returns (f', m') ->
  exists f1 m1,
    f' = f ++ f1 /\ m' = m ++ m1 /\
    f1 ++ m1 ≡ₚ l /\ sublist f1 l /\ sublist m1 l /\
    Forall (fun p => _check_point re p text = Returns true) f1 /\
    Forall (fun p => _check_point re p text = Returns false) m1.
Proof.
  revert f m. induction l as [|p l IH]; intros f m; simpl.
  - intros [= <- <-]. exists [], []. rewrite !app_nil_r.
    repeat split; constructor.
  - destruct (_check_point re p text) as [[|]|e] eqn:Hp; simpl; [| |discriminate].
    + intros H. destruct (IH _ _ H) as (f1 & m1 & -> & -> & Hperm & Hf & Hm & Ff & Fm).
      exists (p :: f1), m1. rewrite <- app_assoc. repeat split; try assumption.
      * simpl. now constructor.
      * now constructor.
      * now constructor.
      * now constructor.
    + intros H. destruct (IH _ _ H) as (f1 & m1 & -> & -> & Hperm & Hf & Hm & Ff & Fm).
      exists f1, (p :: m1). rewrite <- app_assoc. repeat split; try assumption.
      * rewrite <- Permutation_middle. now constructor.
      * now constructor.
      * now constructor.
      * now constructor.
Qed.

Lemma points_violes_spec text l V :
  points_violes re text l = Returns V ->
  sublist V l /\ Forall (fun p => _check_point re p text = Returns true) V.
Proof.
  revert V. induction l as [|p l IH]; intros V; simpl.
  - intros [= <-]. split; constructor.
  - destruct (_check_point re p text) as [b|e] eqn:Hp; simpl; [|discriminate].
    destruct (points_violes re text l) as [V0|e]; simpl; [|discriminate].
    destruct (IH V0 eq_refl) as [Hs HF].
    intros [= <-]. destruct b; split; try (now constructor); assumption.
Qed.

(** What [grade] returns, feedback included. *)
Lemma grade_feedback g answer sc fb :
  grade re g answer = Returns (sc, fb) ->
  exists found missing violated,
    classer_requis re answer (req g) [] [] = Returns (found, missing) /\
    points_violes re answer (forb g) = Returns violated /\
    fb !! "similarity_score" =
      Some (PFloat (FFin (py_round
                            (fmul (SequenceMatcher_ratio (str_lower answer)
                                     (str_lower (expected g))) 40) 2))) /\
    fb !! "required_found" = Some (PList found) /\
    fb !! "required_missing" = Some (PList missing) /\
    fb !! "forbidden_detected" = Some (PList violated) /\
    fb !! "final" = Some (number_pyval sc).
Proof.
  unfold grade. change (py "") with (@nil N). rewrite str_or_nil. unfold bind.
  destruct (classer_requis re answer (req g) [] []) as [[found missing]|e];
    [|discriminate].
  destruct (points_violes re answer (forb g)) as [violated|e]; [|discriminate].
  intros H. exists found, missing, violated.
  split; [reflexivity|]. split; [reflexivity|].
  pose proof (f_equal (fun o => match o with
                                | Returns (x, _) => x
                                | Raises _ => sc
                                end) H) as Hsc.
  pose proof (f_equal (fun o => match o with
                                | Returns (_, y) => y
                                | Raises _ => fb
                                end) H) as Hfb.
  cbv beta iota in Hsc, Hfb. rewrite <- Hfb, <- Hsc.
  repeat split;
    repeat (rewrite lookup_insert_ne by discriminate); now rewrite lookup_insert_eq.
Qed.

(** X16: when [grade] returns, the required points of its feedback are
    split between found and missing, each point once and in the order of
    the rubric, the forbidden points detected are among those of the rubric
    in their order, and ['final'] is the score returned. *)
Theorem grade_feedback_partition (g : BaselineGrader) (answer : pystr)
    (sc : number) (fb : gmap string pyval) :
  grade re g answer = Returns (sc, fb) ->
  exists found missing violated,
    fb !! "required_found" = Some (PList found) /\
    fb !! "required_missing" = Some (PList missing) /\
    fb !! "forbidden_detected" = Some (PList violated) /\
    fb !! "final" = Some (number_pyval sc) /\
    found ++ missing ≡ₚ req g /\
    sublist found (req g) /\ sublist missing (req g) /\
    sublist violated (forb g).
Proof.
  intros H. apply grade_feedback in H
    as (found & missing & violated & Hc & Hv & _ & H1 & H2 & H3 & H4).
  exists found, missing, violated.
  apply classer_requis_spec in Hc as (f1 & m1 & -> & -> & Hperm & Hf & Hm & _).
  apply points_violes_spec in Hv as [Hs _].
  simpl in *. repeat split; assumption.
Qed.

Lemma check_point_sans_regex spec text :
  sans_regex spec -> exists b, _check_point re spec text = Returns b.
Proof.
  destruct spec; simpl; eauto. intros ->. eauto.
Qed.

(** X17: a rubric without regex points can always be graded: [grade]
    returns a score and a feedback for every answer. *)
Theorem grade_sans_regex (g : BaselineGrader) (answer : pystr) :
  Forall sans_regex (req g) -> Forall sans_regex (forb g) ->
  exists sc fb, grade re g answer = Returns (sc, fb).
Proof.
  intros Hr Hf.
  assert (Hret : forall l, Forall sans_regex l ->
                   Forall (fun p => returns (_check_point re p answer) = true) l).
  { intros l Hl. eapply Forall_impl; [exact Hl|].
    intros p Hp. destruct (check_point_sans_regex p answer Hp) as [b ->]. reflexivity. }
  destruct (classer_requis_returns re answer (req g) [] [] (Hret _ Hr)) as (f' & m' & Hc).
  destruct (points_violes_returns re answer (forb g) (Hret _ Hf)) as (V & HV).
  destruct (grade_intro re g answer f' m' V Hc HV) as [fb Hfb]. eauto.
Qed.

(** X18: [grade] raises the error of the first point that [_check_point]
    fails on, the required points being checked before the forbidden
    ones. *)
Theorem grade_raises_first (g : BaselineGrader) (answer : pystr)
    (l1 l2 : list pyval) (p : pyval) (e : exn) :
  Forall (fun x => returns (_check_point re x answer) = true) l1 ->
  _check_point re p answer = Raises e ->
  (req g = l1 ++ p :: l2 -> grade re g answer = Raises e) /\
  (Forall (fun x => returns (_check_point re x answer) = true) (req g) ->
   forb g = l1 ++ p :: l2 -> grade re g answer = Raises e).
Proof.
  intros Hl Hp. split.
  - intros Hreq. unfold grade. change (py "") with (@nil N). rewrite str_or_nil.
    rewrite Hreq, (classer_requis_raises re answer l1 p l2 [] [] e Hl Hp). reflexivity.
  - intros Hreq Hforb. unfold grade. change (py "") with (@nil N). rewrite str_or_nil.
    destruct (classer_requis_returns re answer (req g) [] [] Hreq) as (f' & m' & ->).
    unfold bind. rewrite Hforb, (points_violes_raises re answer l1 p l2 e Hl Hp). reflexivity.
Qed.

(** X19: the part of the score that comes from the similarity, which the
    feedback shows as ['similarity_score'], is between 0 and 40 when the
    ratio is between 0 and 1. *)
Theorem grade_similarity_score (g : BaselineGrader) (answer : pystr)
    (sc : number) (fb : gmap string pyval) :
  let sim := SequenceMatcher_ratio (str_lower answer) (str_lower (expected g)) in
  0 <= sim -> sim <= 1 ->
  grade re g answer = Returns (sc, fb) ->
  exists base, fb !! "similarity_score" = Some (PFloat (FFin base))
               /\ 0 <= base /\ base <= 40.
Proof.
  intros sim H0 H1 H. apply grade_feedback in H
    as (found & missing & violated & _ & _ & Hb & _).
  eexists. split; [exact Hb|]. fold sim. split.
  - apply Qle_trans with (py_round 0 2); [vm_compute; discriminate|].
    apply py_round_mono. unfold fmul. apply fl_nonneg. lra.
  - apply Qle_trans with (py_round 40 2); [|vm_compute; discriminate].
    apply py_round_mono. unfold fmul.
    apply Qle_trans with (fl 40); [|vm_compute; discriminate].
    apply fl_mono. lra.
Qed.

Hypothesis laws : RuntimeLaws R.

(** X20: a literal point is matched without regard to case: the point and
    the answer can both be put in lowercase without changing the verdict. *)
Theorem check_point_literal_case (spec text : pystr) :
  _check_point re (PStr (str_lower spec)) (str_lower text)
  = _check_point re (PStr spec) text.
Proof.
  unfold _check_point. now rewrite !(str_lower_idempotent laws).
Qed.

End GraderFacts.

(** ** The next question number *)

Section ReplaceFacts.

Lemma str_replace_from_skip (old new a d : pystr) :
  str_replace_from (length a) old new (a ++ d) = str_replace_from 0 old new d.
Proof.
  induction a as [|c a IH]; [reflexivity|].
  simpl. destruct (a ++ d) eqn:E; exact IH.
Qed.

(** A leading occurrence is replaced, and the replacement goes on after it. *)
Lemma str_replace_prefix (old new d : pystr) :
  old <> [] -> str_replace (old ++ d) old new = new ++ str_replace d old new.
Proof.
  intros Hne. unfold str_replace. destruct old as [|c o]; [congruence|].
  assert (Hs : str_startswith ((c :: o) ++ d) (c :: o) = true)
    by (apply str_startswith_spec; now exists d).
  change ((c :: o) ++ d) with (c :: (o ++ d)) in *.
  cbn [str_replace_from]. rewrite Hs. f_equal.
  cbn [length]. rewrite Nat.sub_succ, Nat.sub_0_r. apply str_replace_from_skip.
Qed.

(** A text that does not hold [old] is left as it is. *)
Lemma str_replace_absent (old new d : pystr) :
  str_contains d old = false -> str_replace d old new = d.
Proof.
  unfold str_replace. induction d as [|c d IH]; [reflexivity|].
  intros H. change (str_contains (c :: d) old)
    with (str_startswith (c :: d) old || str_contains d old) in H.
  apply orb_false_iff in H as [H1 H2].
  cbn [str_replace_from]. rewrite H1. f_equal. exact (IH H2).
Qed.

End ReplaceFacts.

Section NextNumberFacts.
Variable py_int : pystr -> option Z.

Lemma collecter_numeros_spec stems m :
  m ∈ collecter_numeros py_int stems <->
  exists stem, stem ∈ stems
               /\ py_int (str_replace stem QUESTION_PREFIX (py "")) = Some m.
Proof.
  unfold collecter_numeros.
  enough (G : forall acc,
             m ∈ fold_left
                   (fun numbers stem =>
                      match py_int (str_replace stem QUESTION_PREFIX (py "")) with
                      | Some num => numbers ++ [num]
                      | None => numbers
                      end) stems acc <->
             m ∈ acc \/ exists stem, stem ∈ stems
               /\ py_int (str_replace stem QUESTION_PREFIX (py "")) = Some m).
  { rewrite G. split; [intros [H|H]; [inversion H | exact H] | now right]. }
  induction stems as [|s stems IH]; intros acc; simpl.
  - split; [now left | intros [H|(s & Hs & _)]; [exact H | inversion Hs]].
  - rewrite IH. split.
    + intros [H|(s' & Hs' & Hp)].
      * destruct (py_int _) as [n|] eqn:E; [|now left].
        apply elem_of_app in H as [H|H]; [now left|].
        apply list_elem_of_singleton in H as ->.
        right. exists s. split; [constructor | exact E].
      * right. exists s'. split; [now constructor | exact Hp].
    + intros [H|(s' & Hs' & Hp)].
      * left. destruct (py_int _); [apply elem_of_app; now left | exact H].
      * apply elem_of_cons in Hs' as [->|Hs'].
        -- left. rewrite Hp. apply elem_of_app. right. constructor.
        -- right. exists s'. now split.
Qed.

Lemma max_list_ge n numbers :
  (n <= max_list n numbers)%Z /\ forall m, m ∈ numbers -> (m <= max_list n numbers)%Z.
Proof.
  unfold max_list. revert n. induction numbers as [|k numbers IH]; intros n; simpl.
  - split; [lia | intros m H; inversion H].
  - destruct (IH (Z.max n k)) as [H1 H2]. split; [lia|].
    intros m Hm. apply elem_of_cons in Hm as [->|Hm]; [lia | now apply H2].
Qed.

(** The next number is above every number collected. *)
Lemma next_number_gt stems m :
  m ∈ collecter_numeros py_int stems -> (m < get_next_question_number py_int stems)%Z.
Proof.
  intros Hm. unfold get_next_question_number.
  destruct stems as [|s0 stems']; [inversion Hm|].
  destruct (collecter_numeros py_int (s0 :: stems')) as [|n numbers]; [inversion Hm|].
  destruct (max_list_ge n numbers) as [H1 H2].
  apply elem_of_cons in Hm as [->|Hm]; [lia|]. specialize (H2 m Hm). lia.
Qed.

(** X21: the next question number is greater than every number that the
    loop reads off a file name, and it is 1 when no file name gives a
    number. *)
Theorem next_question_number_fresh (stems : list pystr) :
  (forall stem m,
      stem ∈ stems ->
      py_int (str_replace stem QUESTION_PREFIX (py "")) = Some m ->
      (m < get_next_question_number py_int stems)%Z) /\
  ((forall stem, stem ∈ stems ->
                 py_int (str_replace stem QUESTION_PREFIX (py "")) = None) ->
   get_next_question_number py_int stems = 1%Z).
Proof.
  split.
  - intros stem m Hs Hp. apply next_number_gt, collecter_numeros_spec. eauto.
  - intros Hnone. unfold get_next_question_number.
    destruct stems as [|s0 stems']; [reflexivity|].
    destruct (collecter_numeros py_int (s0 :: stems')) as [|n numbers] eqn:E; [reflexivity|].
    assert (Hn : n ∈ collecter_numeros py_int (s0 :: stems')) by (rewrite E; constructor).
    apply collecter_numeros_spec in Hn as (stem & Hs & Hp).
    rewrite (Hnone stem Hs) in Hp. discriminate Hp.
Qed.

(** X22: the file that [save_question] writes for the next number does not
    exist yet: when a file is named [question_<d>], [d] reads as the number
    [m] and does not hold the prefix again, the next number is above [m]. *)
Theorem next_question_number_above_files (stems : list pystr) (d : pystr) (m : Z) :
  (QUESTION_PREFIX ++ d) ∈ stems ->
  str_contains d QUESTION_PREFIX = false ->
  py_int d = Some m ->
  (m < get_next_question_number py_int stems)%Z.
Proof.
  intros Hs Hd Hm. apply next_number_gt, collecter_numeros_spec.
  exists (QUESTION_PREFIX ++ d). split; [exact Hs|].
  rewrite str_replace_prefix by discriminate.
  change (py "") with (@nil N). cbn [app].
  now rewrite str_replace_absent.
Qed.

End NextNumberFacts.

Lemma next_question_number_fresh_witness :
  py "question_7" ∈ [py "question_3"; py "question_7"; py "question_final"] /\
  int_decimal (str_replace (py "question_7") QUESTION_PREFIX (py "")) = Some 7%Z /\
  (7 < get_next_question_number int_decimal
         [py "question_3"; py "question_7"; py "question_final"])%Z.
Proof.
  assert (H1 : py "question_7" ∈ [py "question_3"; py "question_7"; py "question_final"])
    by (vm_compute; repeat constructor).
  assert (H2 : int_decimal (str_replace (py "question_7")
                              QUESTION_PREFIX (py "")) = Some 7%Z)
    by (vm_compute; reflexivity).
  split; [exact H1|]. split; [exact H2|].
  exact (proj1 (next_question_number_fresh int_decimal _) _ _ H1 H2).
Defined.

Lemma next_question_number_above_files_witness :
  (QUESTION_PREFIX ++ py "12") ∈ [py "question_3"; py "question_12"; py "question_x"] /\
  str_contains (py "12") QUESTION_PREFIX = false /\
  int_decimal (py "12") = Some 12%Z /\
  (12 < get_next_question_number int_decimal
          [py "question_3"; py "question_12"; py "question_x"])%Z.
Proof.
  assert (H1 : (QUESTION_PREFIX ++ py "12")
               ∈ [py "question_3"; py "question_12"; py "question_x"])
    by (vm_compute; repeat constructor).
  assert (H2 : str_contains (py "12") QUESTION_PREFIX = false) by (vm_compute; reflexivity).
  assert (H3 : int_decimal (py "12") = Some 12%Z) by (vm_compute; reflexivity).
  split; [exact H1|]. split; [exact H2|]. split; [exact H3|].
  exact (next_question_number_above_files int_decimal _ _ _ H1 H2 H3).
Defined.

(** ** Witnesses *)

Lemma est_correct_sound_witness :
  evaluer_reponse_local (R := latin1) analyzer_local question_lumiere
    (py "La photosynthese convertit la lumiere") !! "est_correct" = Some (PBool true) /\
  exists x, score_of (evaluer_reponse_local (R := latin1) analyzer_local question_lumiere
                        (py "La photosynthese convertit la lumiere")) = Some x
            /\ (60 <= x)%Q.
Proof.
  assert (H : evaluer_reponse_local (R := latin1) analyzer_local question_lumiere
                (py "La photosynthese convertit la lumiere") !! "est_correct"
              = Some (PBool true)) by (vm_compute; reflexivity).
  split; [exact H|].
  exact (proj1 (est_correct_sound (R := latin1) analyzer_local question_lumiere _ H)).
Defined.

Lemma all_found_is_correct_witness :
  default [] (points_obligatoires question_lumiere) <> [] /\
  evaluer_reponse_local (R := latin1) analyzer_local question_lumiere
    (py "Photosynthese : lumiere.") !! "est_correct" = Some (PBool true).
Proof.
  split; [discriminate|].
  apply (all_found_is_correct (R := latin1) analyzer_local question_lumiere
           (py "Photosynthese : lumiere.")).
  - discriminate.
  - vm_compute. reflexivity.
  - vm_compute. discriminate.
  - vm_compute. reflexivity.
  - vm_compute. reflexivity.
  - vm_compute. reflexivity.
Defined.

Lemma ten_violations_zero_witness :
  (10 <= length (detecter_erreurs (R := latin1) (py "b c d f g h j k l m")
                   (default [] (erreurs_a_eviter question_dix_erreurs))))%nat /\
  evaluer_reponse_local (R := latin1) analyzer_local question_dix_erreurs
    (py "b c d f g h j k l m") !! "score" = Some (PInt 0).
Proof.
  assert (H : (10 <= length (detecter_erreurs (R := latin1) (py "b c d f g h j k l m")
                               (default [] (erreurs_a_eviter question_dix_erreurs))))%nat)
    by (vm_compute; lia).
  split; [exact H|].
  apply (ten_violations_zero (R := latin1) analyzer_local question_dix_erreurs
           (py "b c d f g h j k l m")).
  - vm_compute. discriminate.
  - vm_compute. reflexivity.
  - exact H.
Defined.

Lemma local_similarite_bounds_witness :
  exists x,
    evaluer_reponse_local (R := latin1) analyzer_local question_photosynthese
      (py "La photosynthese transforme la lumiere") !! "similarite"
    = Some (PFloat (FFin x)) /\ (0 <= x)%Q /\ (x <= 100)%Q.
Proof.
  apply (local_similarite_bounds (R := latin1) analyzer_local question_photosynthese).
  - vm_compute. discriminate.
  - vm_compute. discriminate.
Defined.

Lemma router_result_keys_witness :
  match evaluer_reponse (R := latin1) (analyzer_gemini reply_score_85)
          question_photosynthese (py "La photosynthese") with
  | Returns (r, _) => forall k, k ∈ cles_resultats -> is_Some (r !! k)
  | Raises _ => False
  end.
Proof.
  pose proof (router_result_keys (R := latin1) (analyzer_gemini reply_score_85)
                question_photosynthese (py "La photosynthese")) as H.
  assert (Hr : returns (evaluer_reponse (R := latin1) (analyzer_gemini reply_score_85)
                          question_photosynthese (py "La photosynthese")) = true)
    by (vm_compute; reflexivity).
  destruct (evaluer_reponse (R := latin1) (analyzer_gemini reply_score_85)
              question_photosynthese (py "La photosynthese")) as [[r ctx]|e].
  - exact (proj1 (H r ctx eq_refl)).
  - discriminate Hr.
Defined.

Lemma grade_feedback_partition_witness :
  match grade (R := latin1) re_search_paren grader_simple (py "a b") with
  | Returns (sc, fb) =>
    exists found missing violated,
      fb !! "required_found" = Some (PList found) /\
      fb !! "required_missing" = Some (PList missing) /\
      fb !! "forbidden_detected" = Some (PList violated) /\
      fb !! "final" = Some (number_pyval sc) /\
      found ++ missing ≡ₚ req grader_simple /\
      sublist found (req grader_simple) /\ sublist missing (req grader_simple) /\
      sublist violated (forb grader_simple)
  | Raises _ => False
  end.
Proof.
  pose proof (grade_feedback_partition (R := latin1) re_search_paren grader_simple
                (py "a b")) as H.
  assert (Hr : returns (grade (R := latin1) re_search_paren grader_simple (py "a b")) = true)
    by (vm_compute; reflexivity).
  destruct (grade (R := latin1) re_search_paren grader_simple (py "a b")) as [[sc fb]|e].
  - exact (H sc fb eq_refl).
  - discriminate Hr.
Defined.

Lemma grade_sans_regex_witness :
  Forall sans_regex (req grader_simple) /\ Forall sans_regex (forb grader_simple) /\
  exists sc fb, grade (R := latin1) re_search_paren grader_simple (py "a b")
                = Returns (sc, fb).
Proof.
  assert (H1 : Forall sans_regex (req grader_simple)) by (repeat constructor).
  assert (H2 : Forall sans_regex (forb grader_simple)) by (repeat constructor).
  split; [exact H1|]. split; [exact H2|].
  exact (grade_sans_regex (R := latin1) re_search_paren grader_simple (py "a b") H1 H2).
Defined.

Lemma grade_raises_first_witness :
  Forall (fun x => returns (_check_point (R := latin1) re_search_paren x (py "a b")) = true)
         [PStr (py "a")] /\
  _check_point (R := latin1) re_search_paren (regex_spec (py "(")) (py "a b")
  = Raises re_error_paren /\
  grade (R := latin1) re_search_paren grader_regex_invalide (py "a b")
  = Raises re_error_paren.
Proof.
  assert (H1 : Forall (fun x => returns (_check_point (R := latin1) re_search_paren x
                                           (py "a b")) = true) [PStr (py "a")])
    by (repeat constructor).
  assert (H2 : _check_point (R := latin1) re_search_paren (regex_spec (py "(")) (py "a b")
               = Raises re_error_paren) by (vm_compute; reflexivity).
  split; [exact H1|]. split; [exact H2|].
  exact (proj1 (grade_raises_first (R := latin1) re_search_paren grader_regex_invalide
                  (py "a b") [PStr (py "a")] [] (regex_spec (py "(")) re_error_paren H1 H2)
               eq_refl).
Defined.

Lemma grade_similarity_score_witness :
  match grade (R := latin1) re_search_paren grader_simple (py "a b") with
  | Returns (_, fb) =>
    exists base, fb !! "similarity_score" = Some (PFloat (FFin base))
                 /\ (0 <= base)%Q /\ (base <= 40)%Q
  | Raises _ => False
  end.
Proof.
  pose proof (grade_similarity_score (R := latin1) re_search_paren grader_simple
                (py "a b")) as H.
  assert (Hr : returns (grade (R := latin1) re_search_paren grader_simple (py "a b")) = true)
    by (vm_compute; reflexivity).
  destruct (grade (R := latin1) re_search_paren grader_simple (py "a b")) as [[sc fb]|e].
  - apply (H sc fb); [vm_compute; discriminate | vm_compute; discriminate | reflexivity].
  - discriminate Hr.
Defined.

Lemma check_point_literal_case_witness :
  RuntimeLaws latin1 /\
  _check_point (R := latin1) re_search_paren
    (PStr (str_lower (Runtime := latin1) (py "Chlorophylle")))
    (str_lower (Runtime := latin1) (py "La CHLOROPHYLLE est verte"))
  = _check_point (R := latin1) re_search_paren (PStr (py "Chlorophylle"))
      (py "La CHLOROPHYLLE est verte").
Proof.
  split; [exact latin1_laws|].
  apply (check_point_literal_case (R := latin1) re_search_paren latin1_laws).
Defined.
